(** * Numerical tools of the engine: [erf], [cdf] and [cdf_table]

    A shallow embedding of [src/engine/numerics.py].

    Numbers.  The Python code computes on IEEE doubles through numpy.  The
    embedding reads every arithmetic operation as the corresponding operation
    on the real numbers ([R] of the Standard Library): [numpy.exp] is [exp],
    [numpy.sqrt] is [sqrt], [numpy.log] is [ln], [numpy.abs] is [Rabs].
    Rounding, infinities and NaN are outside the model.

    Values.  Every entry point accepts "a scalar or an array of real numbers";
    the two shapes are the constructors of [value].  An array is a numpy
    array, modelled as a list; element-wise numpy expressions are [map]s, and
    boolean-mask indexing ([a[mask]], [a[mask] = v]) is written out on lists,
    with the [IndexError] numpy raises when mask and array disagree in
    length.

    Errors.  Exceptions are the constructors of [exn]; a computation that may
    raise returns a [result].  [cdf], which validates its argument before it
    computes, also records the calls it makes ([traced]).

    The module imports [interpolate1d] from a module that is not among the
    sources; [cdf_table] takes the routine as a parameter, and the
    piecewise-linear routine the specification describes is modelled
    separately ([interpolate1d_linear]).

    Callers.  [erf], [cdf], [cdf_table] and the two prototypes are first
    given on numpy values ([value]).  What changes when the caller passes a
    plain Python list, or a Python float too large for a power, is given on
    [pyarg]: [erf_py], [cdf_py], [cdf_table_py] and [unstable_cdf_py]. *)

From Stdlib Require Import String Bool QArith Qreals Reals Factorial Lra Lia List.
Import ListNotations.

Local Open Scope R_scope.

(** ** Exceptions and the error monad *)

Inductive exn : Type :=
| AssertionError (msg : string)
| IndexError
| RuntimeError (msg : string)
| TypeError
| OverflowError.

Inductive result (A : Type) : Type :=
| Ok (a : A)
| Raise (e : exn).

Arguments Ok {A} a.
Arguments Raise {A} e.

Definition bind {A B : Type} (m : result A) (f : A -> result B) : result B :=
  match m with
  | Ok a => f a
  | Raise e => Raise e
  end.

Notation "x <- m ;; k" := (bind m (fun x => k))
  (at level 61, m at next level, right associativity).

(** ** Scalars and arrays *)

Inductive value : Type :=
| Scalar (r : R)
| Array (l : list R).

(** The "input check" shared by [erf] and [cdf_table]:
<<
    try:
        len(z)
    except:
        scalar = True
        z = [z]
    else:
        scalar = False
    z = numpy.array(z)
>> *)
Definition input_check (z : value) : bool * list R :=
  match z with
  | Scalar r => (true, [r])
  | Array l => (false, l)
  end.

(** The final "if scalar: return a[0] else: return a". *)
Definition index0 (a : list R) : result R :=
  match a with
  | [] => Raise IndexError
  | a0 :: _ => Ok a0
  end.

Definition output (scalar : bool) (a : list R) : result value :=
  if scalar then (a0 <- index0 a ;; Ok (Scalar a0)) else Ok (Array a).

(** Element-wise comparison of an array with a number, [z < c] and [z > c]. *)
Definition ltb (x y : R) : bool := if Rlt_dec x y then true else false.
Definition gtb (x y : R) : bool := ltb y x.

(** Boolean-mask indexing.  [a[mask]] selects the entries at the positions
    where the mask is set; numpy raises [IndexError] when the mask and the
    array have different lengths. *)
Fixpoint getmask (a : list R) (mask : list bool) : result (list R) :=
  match a, mask with
  | [], [] => Ok []
  | x :: a', b :: mask' =>
      r <- getmask a' mask' ;;
      Ok (if b then x :: r else r)
  | _, _ => Raise IndexError
  end.

(** [a[mask] = vals] stores the entries of [vals], in order, at the positions
    where the mask is set.  The number of values has to be the number of
    selected positions. *)
Fixpoint setmask (a : list R) (mask : list bool) (vals : list R)
  : result (list R) :=
  match a, mask with
  | [], [] => match vals with [] => Ok [] | _ :: _ => Raise IndexError end
  | x :: a', b :: mask' =>
      if b then
        match vals with
        | [] => Raise IndexError
        | v :: vals' => r <- setmask a' mask' vals' ;; Ok (v :: r)
        end
      else
        r <- setmask a' mask' vals ;; Ok (x :: r)
  | _, _ => Raise IndexError
  end.

(** [a[mask] = c] stores the number [c] at every selected position. *)
Fixpoint fillmask (a : list R) (mask : list bool) (c : R)
  : result (list R) :=
  match a, mask with
  | [], [] => Ok []
  | x :: a', b :: mask' =>
      r <- fillmask a' mask' c ;;
      Ok ((if b then c else x) :: r)
  | _, _ => Raise IndexError
  end.

(** Element-wise combination of two arrays of the same shape. *)
Fixpoint map2 {A B C : Type} (f : A -> B -> C) (l1 : list A) (l2 : list B)
  : list C :=
  match l1, l2 with
  | x :: l1', y :: l2' => f x y :: map2 f l1' l2'
  | _, _ => []
  end.

(** ** [erf] *)

(** One entry of [ans], from the entries of [z] and [t] at the same position:
<<
    ans = 1 - t * numpy.exp(-z * z - 1.26551223 +
                           t * (1.00002368 +
                           t * (0.37409196 +
                           ...
                           t * (0.17087277))))))))))
>> *)
Definition erf_ans (z t : R) : R :=
  1 - t * exp ((- z) * z - 1.26551223 +
               t * (1.00002368 +
               t * (0.37409196 +
               t * (0.09678418 +
               t * (-0.18628806 +
               t * (0.27886807 +
               t * (-1.13520398 +
               t * (1.48851587 +
               t * (-0.82215223 +
               t * (0.17087277)))))))))).

Definition erf (z : value) : result value :=
  let '(scalar, z) := input_check z in
  (* Begin algorithm *)
  let t := map (fun zi => 1.0 / (1.0 + 0.5 * Rabs zi)) z in
  (* Use Horner's method *)
  let ans := map2 erf_ans z t in
  (* Mask for negative input values *)
  let neg := map (fun zi => ltb zi 0.0) z in
  sel <- getmask ans neg ;;
  ans <- setmask ans neg (map Ropp sel) ;;
  output scalar ans.

(** The reference definition of the specification, one number at a time. *)
Module Reference.

(** The fixed 9-term polynomial, coefficients outermost to innermost. *)
Definition coefficients : list R :=
  [1.00002368; 0.37409196; 0.09678418; -0.18628806; 0.27886807;
   -1.13520398; 1.48851587; -0.82215223; 0.17087277].

(** Horner's method: [t * (c1 + t * (c2 + ... t * (c9)))]. *)
Fixpoint horner (cs : list R) (t : R) : R :=
  match cs with
  | [] => 0
  | c :: cs' => t * (c + horner cs' t)
  end.

Definition poly (t : R) : R := horner coefficients t.

(** [t = 1/(1+0.5*|z|)] *)
Definition tval (z : R) : R := 1 / (1 + 0.5 * Rabs z).

(** [1 - t*exp(-z^2 - 1.26551223 + poly(t))] with [t = 1/(1+0.5*|z|)]. *)
Definition erf_pos (z : R) : R :=
  let t := tval z in
  1 - t * exp (- z ^ 2 - 1.26551223 + poly t).

(** Negated where the input is negative. *)
Definition erf_ref (z : R) : R :=
  if Rlt_dec z 0 then - erf_pos z else erf_pos z.

End Reference.

(** ** A checker for monotonicity of Horner polynomials

    Rational lower bounds, on an interval [[a, b]] with [0 <= a], for the
    value of [t * (c1 + t * (c2 + ...))] and for its slope (the quotient
    [(p t - p s) / (t - s)]), computed along the Horner scheme. *)

Definition Qmin2 (x y : Q) : Q := if Qle_bool x y then x else y.

Fixpoint lower_bounds (cs : list Q) (a b : Q) : Q * Q :=
  match cs with
  | [] => (0, 0)%Q
  | c :: cs' =>
      let '(lo, dlo) := lower_bounds cs' a b in
      let v := (c + lo)%Q in
      (Qmin2 (a * v) (b * v), (v + Qmin2 (a * dlo) (b * dlo))%Q)
  end.

(** The slope bound is non-negative on each of the [n] intervals
    [[i/n, (i+1)/n]] that make up [[0, 1]]. *)
Definition grid_point (n : positive) (i : nat) : Q := Z.of_nat i # n.

Definition slopes_nonneg (cs : list Q) (n : positive) (k : nat) : bool :=
  forallb (fun i => Qle_bool 0 (snd (lower_bounds cs (grid_point n i)
                                                  (grid_point n (S i)))))
          (seq 0 k).

(** The coefficients of [erf]'s polynomial as rationals. *)
Definition coefficientsQ : list Q :=
  [100002368 # 100000000; 37409196 # 100000000; 9678418 # 100000000;
   -18628806 # 100000000; 27886807 # 100000000; -113520398 # 100000000;
   148851587 # 100000000; -82215223 # 100000000; 17087277 # 100000000]%Q.

(** ** [cdf] *)

(** [cdf] calls into numpy and into [erf].  To speak about what has been
    computed when it fails, its model records these calls, in order. *)
Inductive call : Type :=
| numpy_log
| numpy_sqrt
| call_erf.

Definition traced (A : Type) : Type := list call * result A.

Definition ret {A : Type} (a : A) : traced A := ([], Ok a).

Definition raise {A : Type} (e : exn) : traced A := ([], Raise e).

Definition invoke {A : Type} (c : call) (r : result A) : traced A := ([c], r).

Definition tbind {A B : Type} (m : traced A) (f : A -> traced B) : traced B :=
  match m with
  | (tr, Ok a) => let '(tr', r) := f a in (tr ++ tr', r)
  | (tr, Raise e) => (tr, Raise e)
  end.

Notation "x <~ m ;; k" := (tbind m (fun x => k))
  (at level 61, m at next level, right associativity).

(** [assert cond, msg] *)
Definition assert (cond : bool) (msg : string) : traced unit :=
  if cond then ret tt else raise (AssertionError msg).

(** A numpy function or an arithmetic operator applied to a scalar or,
    element-wise, to an array. *)
Definition vmap (f : R -> R) (v : value) : value :=
  match v with
  | Scalar r => Scalar (f r)
  | Array l => Array (map f l)
  end.

Definition dquote : string := String (Ascii.ascii_of_nat 34) EmptyString.

(** ['Argument "kind" must be either normal or lognormal'] *)
Definition cdf_msg : string :=
  ("Argument " ++ dquote ++ "kind" ++ dquote
   ++ " must be either normal or lognormal")%string.

(** The allowed values of [kind]. *)
Definition kinds : list string := ["normal"; "lognormal"]%string.

(** [kind in ['normal', 'lognormal']] *)
Definition kind_in (kind : string) (kinds : list string) : bool :=
  existsb (String.eqb kind) kinds.

(** [cdf] calls itself in the log-normal case; [depth] bounds the number of
    nested activations, and running out of it is Python's "maximum recursion
    depth exceeded". *)
Fixpoint cdf_rec (depth : nat) (x : value) (mu sigma : R) (kind : string)
  : traced value :=
  match depth with
  | O => raise (RuntimeError "maximum recursion depth exceeded")
  | S depth' =>
      let msg := cdf_msg in
      _ <~ assert (kind_in kind kinds) msg ;;
      if String.eqb kind "lognormal" then
        lx <~ invoke numpy_log (Ok (vmap ln x)) ;;
        cdf_rec depth' lx mu sigma "normal"
      else
        s2 <~ invoke numpy_sqrt (Ok (sqrt 2)) ;;
        let arg := vmap (fun xi => (xi - mu) / (sigma * s2)) x in
        e <~ invoke call_erf (erf arg) ;;
        let res := vmap (fun ei => (1 + ei) / 2) e in
        ret res
  end.

(** What the normal case computes from [x], with [erf] read through its
    reference definition. *)
Definition cdf_normal_value (x : value) (mu sigma : R) : value :=
  vmap (fun ei => (1 + ei) / 2)
       (vmap Reference.erf_ref
             (vmap (fun xi => (xi - mu) / (sigma * sqrt 2)) x)).

(** The recursive call is made with [kind='normal'], which does not call
    again: two activations are all that [cdf] ever needs (see
    [cdf_rec_depth]). *)
Definition cdf (x : value) (mu sigma : R) (kind : string) : traced value :=
  cdf_rec 2 x mu sigma kind.

(** [cdf(x)] with the defaults [mu=0, sigma=1, kind='normal']. *)
Definition cdf_default (x : value) : traced value := cdf x 0 1 "normal".

(** What [cdf] returns or raises, without the record of its calls. *)
Definition outcome {A : Type} (m : traced A) : result A := snd m.

Definition calls {A : Type} (m : traced A) : list call := fst m.

(** ** [cdf_table] *)

(** Table data *)
Definition table_x : list R :=
  [-5.00; -4.90; -4.80; -4.70; -4.60; -4.50; -4.40; -4.30;
   -4.20; -4.10; -4.00; -3.90; -3.80; -3.70; -3.60; -3.50;
   -3.40; -3.30; -3.20; -3.10; -3.00; -2.90; -2.80; -2.70;
   -2.60; -2.50; -2.40; -2.30; -2.20; -2.10; -2.00; -1.90;
   -1.80; -1.70; -1.60; -1.50; -1.40; -1.30; -1.20; -1.10;
   -1.00; -0.90; -0.80; -0.70; -0.60; -0.50; -0.40; -0.30;
   -0.20; -0.10; 0.00; 0.10; 0.20; 0.30; 0.40; 0.50;
   0.60; 0.70; 0.80; 0.90; 1.00; 1.10; 1.20; 1.30;
   1.40; 1.50; 1.60; 1.70; 1.80; 1.90; 2.00; 2.10;
   2.20; 2.30; 2.40; 2.50; 2.60; 2.70; 2.80; 2.90;
   3.00; 3.10; 3.20; 3.30; 3.40; 3.50; 3.60; 3.70;
   3.80; 3.90; 4.00; 4.10; 4.20; 4.30; 4.40; 4.50;
   4.60; 4.70; 4.80; 4.90].

Definition table_y : list R :=
  [2.86651572e-07; 4.79183277e-07; 7.93328152e-07; 1.30080745e-06;
   2.11245470e-06; 3.39767312e-06; 5.41254391e-06; 8.53990547e-06;
   1.33457490e-05; 2.06575069e-05; 3.16712418e-05; 4.80963440e-05;
   7.23480439e-05; 1.07799733e-04; 1.59108590e-04; 2.32629079e-04;
   3.36929266e-04; 4.83424142e-04; 6.87137938e-04; 9.67603213e-04;
   1.34989803e-03; 1.86581330e-03; 2.55513033e-03; 3.46697380e-03;
   4.66118802e-03; 6.20966533e-03; 8.19753592e-03; 1.07241100e-02;
   1.39034475e-02; 1.78644206e-02; 2.27501319e-02; 2.87165598e-02;
   3.59303191e-02; 4.45654628e-02; 5.47992917e-02; 6.68072013e-02;
   8.07566592e-02; 9.68004846e-02; 1.15069670e-01; 1.35666061e-01;
   1.58655254e-01; 1.84060125e-01; 2.11855399e-01; 2.41963652e-01;
   2.74253118e-01; 3.08537539e-01; 3.44578258e-01; 3.82088578e-01;
   4.20740291e-01; 4.60172163e-01; 5.00000000e-01; 5.39827837e-01;
   5.79259709e-01; 6.17911422e-01; 6.55421742e-01; 6.91462461e-01;
   7.25746882e-01; 7.58036348e-01; 7.88144601e-01; 8.15939875e-01;
   8.41344746e-01; 8.64333939e-01; 8.84930330e-01; 9.03199515e-01;
   9.19243341e-01; 9.33192799e-01; 9.45200708e-01; 9.55434537e-01;
   9.64069681e-01; 9.71283440e-01; 9.77249868e-01; 9.82135579e-01;
   9.86096552e-01; 9.89275890e-01; 9.91802464e-01; 9.93790335e-01;
   9.95338812e-01; 9.96533026e-01; 9.97444870e-01; 9.98134187e-01;
   9.98650102e-01; 9.99032397e-01; 9.99312862e-01; 9.99516576e-01;
   9.99663071e-01; 9.99767371e-01; 9.99840891e-01; 9.99892200e-01;
   9.99927652e-01; 9.99951904e-01; 9.99968329e-01; 9.99979342e-01;
   9.99986654e-01; 9.99991460e-01; 9.99994587e-01; 9.99996602e-01;
   9.99997888e-01; 9.99998699e-01; 9.99999207e-01; 9.99999521e-01].

(** The module imports [interpolate1d] from [interpolation1d], which is not
    part of the sources at hand: [cdf_table] takes it as a parameter.  Like
    every Python call it may raise. *)
Definition interpolator : Type := list R -> list R -> list R -> result (list R).

Definition cdf_table (interpolate1d : interpolator) (z : value)
  : result value :=
  (* Input check *)
  let '(scalar, z) := input_check z in
  (* Table data *)
  let x := table_x in
  let y := table_y in
  r <- interpolate1d x y z ;;
  (* Set values outside domain to asymtotic result *)
  r <- fillmask r (map (fun zi => ltb zi (hd 0 x)) z) 0 ;;
  r <- fillmask r (map (fun zi => gtb zi (last x 0)) z) 1 ;;
  output scalar r.

(** What the two assignments under a mask leave at a position where the
    query is [z] and the routine returned [v]. *)
Definition clamp (z v : R) : R :=
  if gtb z 4.90 then 1 else if ltb z (-5.00) then 0 else v.

(** The routine answers a query on the table with an array of the length
    of the query. *)
Definition returns_array (interp : interpolator) : Prop :=
  forall q, exists r, interp table_x table_y q = Ok r /\ length r = length q.

(** The routine answers every query inside the table's domain with a value
    between the two table entries that neighbour the query. *)
Definition between_neighbours (interp : interpolator) : Prop :=
  forall q, exists r,
    interp table_x table_y q = Ok r /\ length r = length q
    /\ forall i z v,
        nth_error q i = Some z -> nth_error r i = Some v ->
        hd 0 table_x <= z <= last table_x 0 ->
        exists (j : nat) (xj xj1 yj yj1 : R),
          nth_error table_x j = Some xj /\ nth_error table_x (S j) = Some xj1
          /\ nth_error table_y j = Some yj /\ nth_error table_y (S j) = Some yj1
          /\ xj <= z <= xj1
          /\ Rmin yj yj1 <= v <= Rmax yj yj1.

(** *** The interpolation routine *)

(** Modelled from the spec: the piecewise-linear interpolant of the absent
    routine [interpolate1d].  The value at [z] of the polygonal line through
    the points [(xs_i, ys_i)]: the first segment whose right end is not left
    of [z] is used.  [None] when no segment reaches [z] (or the table has
    fewer than two points). *)
Fixpoint linear_at (xs ys : list R) (z : R) : option R :=
  match xs, ys with
  | x0 :: ((x1 :: _) as xs'), y0 :: ((y1 :: _) as ys') =>
      if Rle_dec z x1
      then Some (y0 + (z - x0) / (x1 - x0) * (y1 - y0))
      else linear_at xs' ys' z
  | _, _ => None
  end.

(** Tables the interpolant is well behaved on: strictly increasing
    abscissae, non-decreasing ordinates. *)
Fixpoint increasing (xs : list R) : Prop :=
  match xs with
  | x0 :: ((x1 :: _) as xs') => x0 < x1 /\ increasing xs'
  | _ => True
  end.

Fixpoint nondecreasing (ys : list R) : Prop :=
  match ys with
  | y0 :: ((y1 :: _) as ys') => y0 <= y1 /\ nondecreasing ys'
  | _ => True
  end.

(** Modelled from the spec: one query point of the absent routine
    [interpolate1d].  Inside [[xs[0], xs[-1]]] it is the interpolant; the
    behaviour outside is "implementation-defined by that collaborator",
    which the model renders by an arbitrary function [outside] of the query
    point. *)
Definition linear_point (outside : R -> R) (xs ys : list R) (z : R) : R :=
  if ltb z (hd 0 xs) || gtb z (last xs 0) then outside z
  else match linear_at xs ys z with
       | Some v => v
       | None => outside z
       end.

(** Modelled from the spec: the routine [interpolate1d] of the module
    [interpolation1d], absent from the sources.  The specification describes
    it as [interpolate(xs, ys, query)], "performing piecewise-linear
    interpolation over (xs, ys) pairs, evaluated at each query point". *)
Definition interpolate1d_linear (outside : R -> R) : interpolator :=
  fun xs ys query => Ok (map (linear_point outside xs ys) query).

(** ** The series prototypes [unstable_cdf2] and [unstable_cdf]

    As everywhere in this file the argument [z] is a float or an array of
    floats, read as reals (on a Python 2 integer the [/] of these loops
    would be integer division).  Both functions [print] one line per pass
    of their loop; the model returns the printed lines beside the value.
    Here the loops run on a numpy value, where no operation raises; the
    exceptions a Python float or a list can cause in [unstable_cdf] are in
    [unstable_cdf_py]. *)

(** Arithmetic between two operands, each a number or an array: numpy
    broadcasts a number over an array and combines two arrays entry by
    entry.  (Every array in the two functions below has the shape of the
    argument [z]; arrays of different shapes do not meet.) *)
Definition vop2 (f : R -> R -> R) (a b : value) : value :=
  match a, b with
  | Scalar x, Scalar y => Scalar (f x y)
  | Scalar x, Array l => Array (map (f x) l)
  | Array l, Scalar y => Array (map (fun x => f x y) l)
  | Array l1, Array l2 => Array (map2 f l1 l2)
  end.

(** What a [print] statement writes: one line, its fields in order.  An
    integer field is kept as the integer, a float or array field as the
    value. *)
Inductive print_field : Type :=
| PInt (i : Z)
| PNum (v : value).

Definition line : Type := list print_field.

(** The inner loop of [unstable_cdf2]:
<<
        prod = 1
        for i in range(n):
            k = i + 1
            prod *= -(z * z / k)
>> *)
Definition prod_loop (z : value) (n : nat) : value :=
  fold_left (fun prod i =>
               let k := (i + 1)%nat in
               vop2 Rmult prod
                    (vmap Ropp (vmap (fun zz => zz / INR k) (vop2 Rmult z z))))
            (seq 0 n) (Scalar 1).

(** One pass of the outer loop of [unstable_cdf2], on the lines printed so
    far and the running [sum]. *)
Definition unstable_cdf2_step (z : value) (st : list line * value) (n : nat)
  : list line * value :=
  let '(out, sum) := st in
  let prod := prod_loop z n in
  let den := (2 * n + 1)%nat in
  let term := vmap (fun zp => zp / INR den) (vop2 Rmult z prod) in
  (* print n, den, term *)
  let out := out ++ [[PInt (Z.of_nat n); PInt (Z.of_nat den); PNum term]] in
  (out, vop2 Rplus sum term).

(** [unstable_cdf2(z)]: what it prints and what it returns. *)
Definition unstable_cdf2 (z : value) : list line * value :=
  let N := 10%nat in  (* Number of iterations *)
  let '(out, sum) := fold_left (unstable_cdf2_step z) (seq 0 N) ([], Scalar 0) in
  (out, vmap (fun s => 2 * s / sqrt PI) sum).

(** The variables [unstable_cdf] carries from one pass of its loop to the
    next. *)
Record cdf_state : Type := {
  st_out : list line;
  st_sum : value;
  st_sign : Z;    (* (-1)^n *)
  st_fact : nat   (* n! *)
}.

(** One pass of the loop of [unstable_cdf]:
<<
        exp = 2 * n + 1
        num = sign * (z ** exp)
        den = fact * exp
        term = num / den
        print n, num, den, term
        sum += term
        sign = -sign
        if n > 0:
            fact = fact * n
>> *)
Definition unstable_cdf_step (z : value) (st : cdf_state) (n : nat)
  : cdf_state :=
  let exp := (2 * n + 1)%nat in
  let num := vmap (fun x => IZR (st_sign st) * x ^ exp) z in
  let den := (st_fact st * exp)%nat in
  let term := vmap (fun x => x / INR den) num in
  {| st_out := st_out st ++ [[PInt (Z.of_nat n); PNum num;
                              PInt (Z.of_nat den); PNum term]];
     st_sum := vop2 Rplus (st_sum st) term;
     st_sign := (- st_sign st)%Z;
     st_fact := if (0 <? n)%nat then (st_fact st * n)%nat else st_fact st |}.

(** [unstable_cdf(z)]: what it prints and what it returns. *)
Definition unstable_cdf (z : value) : list line * value :=
  let N := 10%nat in
  let st := fold_left (unstable_cdf_step z) (seq 0 N)
                      {| st_out := []; st_sum := Scalar 0;
                         st_sign := 1; st_fact := 1 |} in
  (st_out st, vmap (fun s => 2 * s / sqrt PI) (st_sum st)).

(** The terms of the two series at a number [x]. *)
Definition taylor_term (x : R) (n : nat) : R :=
  (-1) ^ n * x ^ (2 * n + 1) / (INR (fact n) * INR (2 * n + 1)).

Definition lagging_term (x : R) (n : nat) : R :=
  (-1) ^ n * x ^ (2 * n + 1) / (INR (fact (pred n)) * INR (2 * n + 1)).

(** [v] is the function [f] applied across [z], or a plain number that
    does not depend on [z]. *)
Definition rep (v : value) (f : R -> R) (z : value) : Prop :=
  v = vmap f z \/ exists c, v = Scalar c /\ forall x, f x = c.

(** The sum of the first [m] terms, added in the order of the loop:
    [((0 + f 0) + f 1) + ...]. *)
Fixpoint series (f : nat -> R) (m : nat) : R :=
  match m with
  | O => 0
  | S m' => series f m' + f m'
  end.

(** The line pass [n] of each loop prints. *)
Definition unstable_cdf2_line (z : value) (n : nat) : line :=
  [PInt (Z.of_nat n); PInt (Z.of_nat (2 * n + 1));
   PNum (vmap (fun x => taylor_term x n) z)].

Definition unstable_cdf_line (z : value) (n : nat) : line :=
  [PInt (Z.of_nat n); PNum (vmap (fun x => (-1) ^ n * x ^ (2 * n + 1)) z);
   PInt (Z.of_nat (fact (pred n) * (2 * n + 1)));
   PNum (vmap (fun x => lagging_term x n) z)].

(** The state [unstable_cdf] starts its loop in. *)
Definition unstable_cdf_init : cdf_state :=
  {| st_out := []; st_sum := Scalar 0; st_sign := 1; st_fact := 1 |}.

(** ** What a caller may pass

    The docstrings say "scalar or array of real numbers".  A caller can
    pass a Python float, a numpy array, or a plain Python list (or tuple) of
    floats.  [erf] and [cdf_table] take the length of the argument and
    convert it with [numpy.array], so a list serves them as an array does;
    [cdf] and [unstable_cdf] apply arithmetic to the argument as it comes,
    and Python has none between a list and a number. *)
Inductive pyarg : Type :=
| PyFloat (r : R)
| PyList (l : list R)
| NdArray (l : list R).

(** The argument as numpy holds it. *)
Definition as_value (z : pyarg) : value :=
  match z with
  | PyFloat r => Scalar r
  | PyList l => Array l
  | NdArray l => Array l
  end.

(** The input check on a caller's argument: [len(z)] fails on a float only,
    and [numpy.array(z)] turns a list into an array. *)
Definition input_check_py (z : pyarg) : bool * list R :=
  match z with
  | PyFloat r => (true, [r])
  | PyList l => (false, l)
  | NdArray l => (false, l)
  end.

(** [erf] on a caller's argument. *)
Definition erf_py (z : pyarg) : result value :=
  let '(scalar, z) := input_check_py z in
  let t := map (fun zi => 1.0 / (1.0 + 0.5 * Rabs zi)) z in
  let ans := map2 erf_ans z t in
  let neg := map (fun zi => ltb zi 0.0) z in
  sel <- getmask ans neg ;;
  ans <- setmask ans neg (map Ropp sel) ;;
  output scalar ans.

(** [cdf_table] on a caller's argument. *)
Definition cdf_table_py (interpolate1d : interpolator) (z : pyarg)
  : result value :=
  let '(scalar, z) := input_check_py z in
  let x := table_x in
  let y := table_y in
  r <- interpolate1d x y z ;;
  r <- fillmask r (map (fun zi => ltb zi (hd 0 x)) z) 0 ;;
  r <- fillmask r (map (fun zi => gtb zi (last x 0)) z) 1 ;;
  output scalar r.

(** An arithmetic operator between a caller's argument and a number, as in
    [x - mu]: element-wise on a numpy array, a [TypeError] on a list. *)
Definition py_arith (f : R -> R) (x : pyarg) : result value :=
  match x with
  | PyFloat r => Ok (Scalar (f r))
  | PyList _ => Raise TypeError
  | NdArray l => Ok (Array (map f l))
  end.

(** A numpy function, as [numpy.log(x)]: it converts a list first. *)
Definition numpy_fun (f : R -> R) (x : pyarg) : value := vmap f (as_value x).

Definition lift {A : Type} (r : result A) : traced A := ([], r).

(** [cdf] on a caller's argument.  The subtraction [x - mu] is the first
    thing the normal case evaluates; the log-normal case hands
    [numpy.log(x)], a numpy value, to the recursive call. *)
Definition cdf_py (x : pyarg) (mu sigma : R) (kind : string) : traced value :=
  let msg := cdf_msg in
  _ <~ assert (kind_in kind kinds) msg ;;
  if String.eqb kind "lognormal" then
    lx <~ invoke numpy_log (Ok (numpy_fun ln x)) ;;
    cdf lx mu sigma "normal"
  else
    d <~ lift (py_arith (fun xi => xi - mu) x) ;;
    s2 <~ invoke numpy_sqrt (Ok (sqrt 2)) ;;
    let arg := vmap (fun di => di / (sigma * s2)) d in
    e <~ invoke call_erf (erf arg) ;;
    let res := vmap (fun ei => (1 + ei) / 2) e in
    ret res.

(** *** [unstable_cdf] on a caller's argument *)

(** The largest finite double. *)
Definition DBL_MAX : R := (2 ^ 53 - 1) * 2 ^ 971.

(** [z ** exp].  On a Python float the power raises [OverflowError] when the
    result is out of the range of doubles; a list has no power; on a numpy
    array it is taken entry by entry (numpy writes [inf] where the range is
    exceeded, which is outside the model). *)
Definition py_pow (z : pyarg) (exp : nat) : result value :=
  match z with
  | PyFloat x =>
      if Rlt_dec DBL_MAX (Rabs (x ^ exp)) then Raise OverflowError
      else Ok (Scalar (x ^ exp))
  | PyList _ => Raise TypeError
  | NdArray l => Ok (Array (map (fun x => x ^ exp) l))
  end.

(** One pass of the loop of [unstable_cdf], which may raise at [z ** exp],
    before it prints. *)
Definition unstable_cdf_pass (z : pyarg) (st : cdf_state) (n : nat)
  : result cdf_state :=
  let exp := (2 * n + 1)%nat in
  p <- py_pow z exp ;;
  let num := vmap (fun v => IZR (st_sign st) * v) p in
  let den := (st_fact st * exp)%nat in
  let term := vmap (fun x => x / INR den) num in
  Ok {| st_out := st_out st ++ [[PInt (Z.of_nat n); PNum num;
                                 PInt (Z.of_nat den); PNum term]];
        st_sum := vop2 Rplus (st_sum st) term;
        st_sign := (- st_sign st)%Z;
        st_fact := if (0 <? n)%nat then (st_fact st * n)%nat
                   else st_fact st |}.

(** The loop: the passes in order, until one raises.  The lines printed
    before the exception stay printed. *)
Fixpoint unstable_cdf_loop (z : pyarg) (ns : list nat) (st : cdf_state)
  : list line * result cdf_state :=
  match ns with
  | [] => (st_out st, Ok st)
  | n :: ns' =>
      match unstable_cdf_pass z st n with
      | Ok st' => unstable_cdf_loop z ns' st'
      | Raise e => (st_out st, Raise e)
      end
  end.

(** [unstable_cdf(z)] on a caller's argument: the lines it prints, and the
    value it returns or the exception it raises. *)
Definition unstable_cdf_py (z : pyarg) : list line * result value :=
  let N := 10%nat in
  let '(out, r) := unstable_cdf_loop z (seq 0 N) unstable_cdf_init in
  (out, st <- r ;; Ok (vmap (fun s => 2 * s / sqrt PI) (st_sum st))).

(** Arguments on which no power of [unstable_cdf] leaves the range of
    doubles: a float, or a numpy array of floats, of size at most [1e16]. *)
Definition moderate (z : pyarg) : Prop :=
  match z with
  | PyFloat x => Rabs x <= 1e16
  | PyList _ => False
  | NdArray l => Forall (fun x => Rabs x <= 1e16) l
  end.

Import Reference.

(** ** Masks and element-wise operations *)

Lemma map2_length {A B C : Type} (f : A -> B -> C) (l1 : list A) (l2 : list B) :
  length l1 = length l2 -> length (map2 f l1 l2) = length l1.
Proof.
  revert l2; induction l1 as [|x l1 IH]; intros [|y l2] H; simpl in *;
    try discriminate; auto.
Qed.

Lemma map2_map_same {A B C : Type} (f : A -> B -> C) (g : A -> B) (l : list A) :
  map2 f l (map g l) = map (fun x => f x (g x)) l.
Proof.
  induction l as [|x l IH]; simpl; [reflexivity | now rewrite IH].
Qed.

(** Reading the selected entries, transforming them and writing them back
    is the element-wise conditional update. *)
Lemma getmask_setmask (f : R -> R) (a : list R) (mask : list bool) :
  length a = length mask ->
  (sel <- getmask a mask ;; setmask a mask (map f sel))
  = Ok (map2 (fun x (b : bool) => if b then f x else x) a mask).
Proof.
  revert mask; induction a as [|x a IH]; intros [|b mask] H; simpl in *;
    try discriminate; [reflexivity|].
  injection H as H. specialize (IH mask H).
  destruct (getmask a mask) as [sel|e]; simpl in *; [|discriminate].
  destruct b; simpl; rewrite IH; reflexivity.
Qed.

Lemma fillmask_ok (a : list R) (mask : list bool) (c : R) :
  length a = length mask ->
  fillmask a mask c = Ok (map2 (fun x (b : bool) => if b then c else x) a mask).
Proof.
  revert mask; induction a as [|x a IH]; intros [|b mask] H; simpl in *;
    try discriminate; [reflexivity|].
  injection H as H. now rewrite (IH mask H).
Qed.


(** ** [erf] against its reference definition *)


Lemma erf_ans_pos (z : R) :
  erf_ans z (1.0 / (1.0 + 0.5 * Rabs z)) = erf_pos z.
Proof.
  unfold erf_ans, erf_pos, tval, poly, coefficients; simpl horner.
  replace (1.0 / (1.0 + 0.5 * Rabs z)) with (1 / (1 + 0.5 * Rabs z))
    by (f_equal; lra).
  set (t := 1 / (1 + 0.5 * Rabs z)).
  f_equal. f_equal. f_equal. ring.
Qed.

Lemma erf_entry (z : R) :
  (if ltb z 0.0 then - erf_ans z (1.0 / (1.0 + 0.5 * Rabs z))
   else erf_ans z (1.0 / (1.0 + 0.5 * Rabs z))) = erf_ref z.
Proof.
  rewrite erf_ans_pos. unfold erf_ref, ltb.
  destruct (Rlt_dec z 0.0) as [H|H], (Rlt_dec z 0) as [H'|H'];
    try reflexivity; exfalso; lra.
Qed.

(** The array pipeline of [erf]: compute [t], [ans] and the mask, negate
    under the mask. *)
Lemma erf_pipeline (l : list R) :
  let t := map (fun zi => 1.0 / (1.0 + 0.5 * Rabs zi)) l in
  let ans := map2 erf_ans l t in
  let neg := map (fun zi => ltb zi 0.0) l in
  (sel <- getmask ans neg ;; setmask ans neg (map Ropp sel))
  = Ok (map erf_ref l).
Proof.
  intros t ans neg.
  rewrite getmask_setmask.
  - f_equal. subst ans neg t. rewrite map2_map_same.
    induction l as [|z l IH]; simpl; [reflexivity|].
    rewrite IH. f_equal. apply erf_entry.
  - subst ans neg t. rewrite map2_length; now rewrite !length_map.
Qed.

Lemma erf_array (l : list R) : erf (Array l) = Ok (Array (map erf_ref l)).
Proof.
  unfold erf; cbn [input_check]; cbv beta iota zeta.
  pose proof (erf_pipeline l) as H; cbv zeta in H.
  destruct (getmask _ _) as [sel|e]; cbn [bind] in *; [|discriminate].
  rewrite H. reflexivity.
Qed.

Lemma erf_scalar (z : R) : erf (Scalar z) = Ok (Scalar (erf_ref z)).
Proof.
  unfold erf; cbn [input_check]; cbv beta iota zeta.
  pose proof (erf_pipeline [z]) as H; cbv zeta in H.
  destruct (getmask _ _) as [sel|e]; cbn [bind] in *; [|discriminate].
  rewrite H. reflexivity.
Qed.

(** C1.  For every scalar or array input, [erf] computes the reference
    definition of the specification: [1 - t*exp(-z^2 - 1.26551223 + p(t))]
    with [t = 1/(1+0.5*|z|)] and [p] the 9-term Horner polynomial, negated
    exactly at the entries where the input is negative. *)
Theorem erf_refines_reference (z : value) :
  erf z = Ok (match z with
              | Scalar r => Scalar (erf_ref r)
              | Array l => Array (map erf_ref l)
              end).
Proof.
  destruct z as [r|l]; [apply erf_scalar | apply erf_array].
Qed.

Lemma erf_vmap (z : value) : erf z = Ok (vmap erf_ref z).
Proof. destruct z as [r|l]; [apply erf_scalar | apply erf_array]. Qed.

(** ** [cdf] *)

Lemma kind_in_spec (kind : string) :
  kind_in kind kinds = true <-> In kind kinds.
Proof.
  unfold kind_in, kinds. rewrite existsb_exists. split.
  - intros [k [Hin Heq]]. apply String.eqb_eq in Heq. now subst.
  - intros Hin. exists kind. split; [assumption | apply String.eqb_refl].
Qed.

Lemma cdf_rec_normal (d : nat) (x : value) (mu sigma : R) :
  cdf_rec (S d) x mu sigma "normal"
  = ([numpy_sqrt; call_erf], Ok (cdf_normal_value x mu sigma)).
Proof.
  cbn [cdf_rec kind_in kinds existsb String.eqb Ascii.eqb Bool.eqb orb
       assert ret tbind invoke app].
  rewrite erf_vmap. reflexivity.
Qed.

Lemma cdf_rec_lognormal (d : nat) (x : value) (mu sigma : R) :
  cdf_rec (S (S d)) x mu sigma "lognormal"
  = ([numpy_log; numpy_sqrt; call_erf],
     Ok (cdf_normal_value (vmap ln x) mu sigma)).
Proof.
  cbn [cdf_rec kind_in kinds existsb String.eqb Ascii.eqb Bool.eqb orb
       assert ret tbind invoke app].
  rewrite erf_vmap. reflexivity.
Qed.

Lemma cdf_rec_invalid (d : nat) (x : value) (mu sigma : R) (kind : string) :
  kind_in kind kinds = false ->
  cdf_rec (S d) x mu sigma kind = ([], Raise (AssertionError cdf_msg)).
Proof.
  intros H. cbn [cdf_rec]. rewrite H. reflexivity.
Qed.

Lemma kind_cases (kind : string) :
  kind = "normal"%string \/ kind = "lognormal"%string
  \/ kind_in kind kinds = false.
Proof.
  destruct (kind_in kind kinds) eqn:E; [|auto].
  apply kind_in_spec in E. destruct E as [<-|[<-|[]]]; auto.
Qed.

(** Two activations are enough: more depth changes nothing. *)
Lemma cdf_rec_depth (d : nat) (x : value) (mu sigma : R) (kind : string) :
  cdf_rec (S (S d)) x mu sigma kind = cdf x mu sigma kind.
Proof.
  unfold cdf.
  destruct (kind_cases kind) as [->|[->|H]].
  - now rewrite !cdf_rec_normal.
  - now rewrite !cdf_rec_lognormal.
  - now rewrite !cdf_rec_invalid.
Qed.

(** C2.  The normal case returns [(1 + erf((x - mu)/(sigma*sqrt(2))))/2];
    the log-normal case returns what the normal case returns at [ln(x)],
    with [mu] and [sigma] unchanged and without a test on the sign of [x];
    in particular [cdf(1, kind='lognormal')] is [cdf(0, kind='normal')] for
    [mu=0, sigma=1]. *)
Theorem cdf_normal_lognormal (x : value) (mu sigma : R) :
  (exists e : value,
      erf (vmap (fun xi => (xi - mu) / (sigma * sqrt 2)) x) = Ok e
      /\ outcome (cdf x mu sigma "normal")
         = Ok (vmap (fun ei => (1 + ei) / 2) e))
  /\ outcome (cdf x mu sigma "lognormal")
     = outcome (cdf (vmap ln x) mu sigma "normal")
  /\ outcome (cdf (Scalar 1) 0 1 "lognormal")
     = outcome (cdf (Scalar 0) 0 1 "normal").
Proof.
  unfold cdf. rewrite !cdf_rec_normal, !cdf_rec_lognormal.
  repeat split.
  - eexists. split; [apply erf_vmap | reflexivity].
  - cbn [vmap]. now rewrite ln_1.
Qed.

(** C6.  [cdf] raises the invalid-argument error exactly when [kind] is
    neither ['normal'] nor ['lognormal']; it raises nothing else; and when
    it raises it has made no call into numpy or [erf]: nothing has been
    computed. *)
Theorem cdf_invalid_kind (x : value) (mu sigma : R) (kind : string) :
  ((exists msg, outcome (cdf x mu sigma kind) = Raise (AssertionError msg))
   <-> ~ In kind kinds)
  /\ ((exists e, outcome (cdf x mu sigma kind) = Raise e)
      <-> outcome (cdf x mu sigma kind) = Raise (AssertionError cdf_msg)
          /\ calls (cdf x mu sigma kind) = []).
Proof.
  unfold cdf, outcome, calls.
  destruct (kind_cases kind) as [->|[->|H]].
  - rewrite cdf_rec_normal. cbn [fst snd]. repeat split.
    + intros [msg Hm]; discriminate.
    + intros Hn; exfalso; apply Hn; cbn; auto.
    + destruct H as [e He]; discriminate.
    + destruct H as [e He]; discriminate.
    + intros [He _]; discriminate.
  - rewrite cdf_rec_lognormal. cbn [fst snd]. repeat split.
    + intros [msg Hm]; discriminate.
    + intros Hn; exfalso; apply Hn; cbn; auto.
    + destruct H as [e He]; discriminate.
    + destruct H as [e He]; discriminate.
    + intros [He _]; discriminate.
  - rewrite cdf_rec_invalid by assumption. cbn [fst snd]. repeat split.
    + intros _ Hin. apply kind_in_spec in Hin. congruence.
    + intros _. now exists cdf_msg.
    + intros _. now exists (AssertionError cdf_msg).
Qed.

(** ** [cdf_table]: clamping and shape *)

Lemma hd_table_x : hd 0 table_x = -5.00.
Proof. reflexivity. Qed.

Lemma last_table_x : last table_x 0 = 4.90.
Proof. reflexivity. Qed.

Lemma map2_nth_error {A B C : Type} (f : A -> B -> C) (l1 : list A) (l2 : list B)
      (i : nat) (a : A) :
  length l1 = length l2 -> nth_error l1 i = Some a ->
  exists b, nth_error l2 i = Some b /\ nth_error (map2 f l1 l2) i = Some (f a b).
Proof.
  revert l2 i; induction l1 as [|x l1 IH]; intros [|y l2] [|i] Hlen Hi;
    simpl in *; try discriminate.
  - injection Hi as ->. now exists y.
  - apply IH; [now injection Hlen | assumption].
Qed.

Lemma clamp_pipeline (l r : list R) :
  length r = length l ->
  (r1 <- fillmask r (map (fun zi => ltb zi (hd 0 table_x)) l) 0 ;;
   fillmask r1 (map (fun zi => gtb zi (last table_x 0)) l) 1)
  = Ok (map2 clamp l r).
Proof.
  intros Hlen. rewrite hd_table_x, last_table_x.
  rewrite fillmask_ok by now rewrite length_map.
  cbn [bind].
  rewrite fillmask_ok
    by (rewrite map2_length; now rewrite length_map).
  f_equal. clear Hlen. revert r; induction l as [|z l IH]; intros [|v r];
    simpl; try reflexivity.
  rewrite IH. reflexivity.
Qed.

Lemma cdf_table_array (interp : interpolator) (l r : list R) :
  interp table_x table_y l = Ok r -> length r = length l ->
  cdf_table interp (Array l) = Ok (Array (map2 clamp l r)).
Proof.
  intros Hr Hlen. unfold cdf_table; cbn [input_check]; cbv beta iota zeta.
  rewrite Hr; cbn [bind].
  pose proof (clamp_pipeline l r Hlen) as H.
  destruct (fillmask r _ 0) as [r1|e]; cbn [bind] in *; [|discriminate].
  rewrite H. reflexivity.
Qed.

Lemma cdf_table_scalar (interp : interpolator) (z : R) (r : list R) :
  interp table_x table_y [z] = Ok r -> length r = 1%nat ->
  exists v, r = [v] /\ cdf_table interp (Scalar z) = Ok (Scalar (clamp z v)).
Proof.
  intros Hr Hlen. destruct r as [|v [|w r]]; try discriminate.
  exists v. split; [reflexivity|].
  unfold cdf_table; cbn [input_check]; cbv beta iota zeta.
  rewrite Hr; cbn [bind].
  pose proof (clamp_pipeline [z] [v] eq_refl) as H.
  destruct (fillmask [v] _ 0) as [r1|e]; cbn [bind] in *; [|discriminate].
  rewrite H. reflexivity.
Qed.

Lemma clamp_below (z v : R) : z < -5.00 -> clamp z v = 0.
Proof.
  intros H. unfold clamp, gtb, ltb.
  destruct (Rlt_dec 4.90 z); [lra|]. destruct (Rlt_dec z (-5.00)); [reflexivity|lra].
Qed.

Lemma clamp_above (z v : R) : z > 4.90 -> clamp z v = 1.
Proof.
  intros H. unfold clamp, gtb, ltb.
  destruct (Rlt_dec 4.90 z); [reflexivity|lra].
Qed.

Lemma clamp_inside (z v : R) : -5.00 <= z <= 4.90 -> clamp z v = v.
Proof.
  intros H. unfold clamp, gtb, ltb.
  destruct (Rlt_dec 4.90 z); [lra|]. destruct (Rlt_dec z (-5.00)); [lra|reflexivity].
Qed.

Section Clamping.

Variable interp : interpolator.
Hypothesis interp_array : returns_array interp.

Lemma cdf_table_scalar_ok (z : R) :
  exists v, interp table_x table_y [z] = Ok [v]
            /\ cdf_table interp (Scalar z) = Ok (Scalar (clamp z v)).
Proof.
  destruct (interp_array [z]) as [r [Hr Hlen]].
  destruct (cdf_table_scalar interp z r Hr Hlen) as [v [-> Hv]].
  now exists v.
Qed.

Lemma cdf_table_array_ok (l : list R) :
  exists r, interp table_x table_y l = Ok r /\ length r = length l
            /\ cdf_table interp (Array l) = Ok (Array (map2 clamp l r)).
Proof.
  destruct (interp_array l) as [r [Hr Hlen]].
  exists r. repeat split; try assumption. now apply cdf_table_array.
Qed.

(** C3.  Whatever the interpolation routine returns, every query left of
    the table ([z < -5.00]) yields exactly 0 and every query right of it
    ([z > 4.90]) yields exactly 1, for a scalar and at every position of
    an array: the clamp is applied to the routine's result. *)
Theorem cdf_table_clamps_outside :
  (forall z, z < -5.00 -> cdf_table interp (Scalar z) = Ok (Scalar 0))
  /\ (forall z, z > 4.90 -> cdf_table interp (Scalar z) = Ok (Scalar 1))
  /\ (forall l, exists out,
         cdf_table interp (Array l) = Ok (Array out)
         /\ forall i z, nth_error l i = Some z ->
              (z < -5.00 -> nth_error out i = Some 0)
              /\ (z > 4.90 -> nth_error out i = Some 1)).
Proof.
  repeat split.
  - intros z Hz. destruct (cdf_table_scalar_ok z) as [v [_ ->]].
    now rewrite clamp_below.
  - intros z Hz. destruct (cdf_table_scalar_ok z) as [v [_ ->]].
    now rewrite clamp_above.
  - intros l. destruct (cdf_table_array_ok l) as [r [_ [Hlen ->]]].
    eexists. split; [reflexivity|]. intros i z Hi.
    destruct (map2_nth_error clamp l r i z (eq_sym Hlen) Hi) as [v [_ ->]].
    split; intros Hz; [now rewrite clamp_below | now rewrite clamp_above].
Qed.

End Clamping.

(** ** The piecewise-linear interpolant *)


Lemma increasing_hd_last (x : R) (xs : list R) :
  increasing (x :: xs) -> x <= last (x :: xs) 0.
Proof.
  revert x; induction xs as [|x1 xs IH]; intros x H; [simpl; lra|].
  destruct H as [H1 H2]. specialize (IH x1 H2).
  change (last (x :: x1 :: xs) 0) with (last (x1 :: xs) 0). lra.
Qed.

Lemma nondecreasing_hd_last (y : R) (ys : list R) :
  nondecreasing (y :: ys) -> y <= last (y :: ys) 0.
Proof.
  revert y; induction ys as [|y1 ys IH]; intros y H; [simpl; lra|].
  destruct H as [H1 H2]. specialize (IH y1 H2).
  change (last (y :: y1 :: ys) 0) with (last (y1 :: ys) 0). lra.
Qed.

(** A point of a segment with non-negative slope lies between its ends. *)
Lemma segment_bounds (x0 x1 y0 y1 z : R) :
  x0 < x1 -> x0 <= z <= x1 -> y0 <= y1 ->
  y0 <= y0 + (z - x0) / (x1 - x0) * (y1 - y0) <= y1.
Proof.
  intros Hx Hz Hy.
  assert (H0 : 0 <= (z - x0) / (x1 - x0)).
  { apply Rmult_le_pos; [lra|]. left. apply Rinv_0_lt_compat. lra. }
  assert (H1 : (z - x0) / (x1 - x0) <= 1).
  { apply Rmult_le_reg_r with (x1 - x0); [lra|].
    unfold Rdiv. rewrite Rmult_assoc, Rinv_l by lra. lra. }
  split; nra.
Qed.

Lemma segment_monotone (x0 x1 y0 y1 z1 z2 : R) :
  x0 < x1 -> z1 <= z2 -> y0 <= y1 ->
  y0 + (z1 - x0) / (x1 - x0) * (y1 - y0)
  <= y0 + (z2 - x0) / (x1 - x0) * (y1 - y0).
Proof.
  intros Hx Hz Hy.
  assert (Hi : 0 < / (x1 - x0)) by (apply Rinv_0_lt_compat; lra).
  apply Rplus_le_compat_l. apply Rmult_le_compat_r; [lra|].
  unfold Rdiv. apply Rmult_le_compat_r; lra.
Qed.

Lemma linear_at_cons (x0 x1 y0 y1 z : R) (xs ys : list R) :
  linear_at (x0 :: x1 :: xs) (y0 :: y1 :: ys) z
  = if Rle_dec z x1
    then Some (y0 + (z - x0) / (x1 - x0) * (y1 - y0))
    else linear_at (x1 :: xs) (y1 :: ys) z.
Proof. reflexivity. Qed.

(** Inside the domain the interpolant exists and stays between the first
    and the last table value. *)
Lemma linear_at_bounds (xs ys : list R) (z : R) :
  increasing xs -> nondecreasing ys -> length xs = length ys ->
  (2 <= length xs)%nat -> hd 0 xs <= z <= last xs 0 ->
  exists v, linear_at xs ys z = Some v /\ hd 0 ys <= v <= last ys 0.
Proof.
  revert ys; induction xs as [|x0 xs IH]; intros ys Hx Hy Hlen H2 Hz;
    [simpl in H2; lia|].
  destruct xs as [|x1 xs]; [simpl in H2; lia|].
  destruct ys as [|y0 [|y1 ys]]; try discriminate.
  cbn [linear_at hd]. destruct Hx as [Hx01 Hx], Hy as [Hy01 Hy].
  destruct (Rle_dec z x1) as [Hle|Hgt].
  - eexists; split; [reflexivity|].
    pose proof (segment_bounds x0 x1 y0 y1 z Hx01) as Hs.
    cbn [hd] in Hz.
    pose proof (nondecreasing_hd_last y1 ys Hy) as Hl.
    change (last (y0 :: y1 :: ys) 0) with (last (y1 :: ys) 0). lra.
  - destruct xs as [|x2 xs].
    + exfalso. simpl in Hz. lra.
    + destruct (IH (y1 :: ys)) as [v [Hv Hb]]; try assumption.
      * simpl in Hlen |- *; lia.
      * simpl; lia.
      * change (last (x0 :: x1 :: x2 :: xs) 0)
          with (last (x1 :: x2 :: xs) 0) in Hz. cbn [hd]. lra.
      * exists v. split; [exact Hv|]. cbn [hd] in Hb.
        change (last (y0 :: y1 :: ys) 0) with (last (y1 :: ys) 0). lra.
Qed.

(** The interpolant is non-decreasing on the domain when the table is. *)
Lemma linear_at_monotone (xs ys : list R) (z1 z2 v1 v2 : R) :
  increasing xs -> nondecreasing ys -> length xs = length ys ->
  hd 0 xs <= z1 -> z1 <= z2 -> z2 <= last xs 0 ->
  linear_at xs ys z1 = Some v1 -> linear_at xs ys z2 = Some v2 ->
  v1 <= v2.
Proof.
  revert ys; induction xs as [|x0 xs IH]; intros ys Hx Hy Hlen Hz1 Hz Hz2 H1 H2;
    [discriminate|].
  destruct xs as [|x1 xs]; [discriminate|].
  destruct ys as [|y0 [|y1 ys]]; try discriminate.
  rewrite linear_at_cons in H1, H2.
  cbn [hd] in Hz1. destruct Hx as [Hx01 Hx], Hy as [Hy01 Hy].
  change (last (x0 :: x1 :: xs) 0) with (last (x1 :: xs) 0) in Hz2.
  destruct (Rle_dec z1 x1) as [Hle1|Hgt1], (Rle_dec z2 x1) as [Hle2|Hgt2].
  - injection H1 as <-. injection H2 as <-. now apply segment_monotone.
  - injection H1 as <-.
    pose proof (segment_bounds x0 x1 y0 y1 z1 Hx01) as Hs.
    destruct xs as [|x2 xs]; [discriminate|].
    destruct (linear_at_bounds (x1 :: x2 :: xs) (y1 :: ys) z2) as [v [Hv Hb]];
      try assumption.
    + simpl in Hlen |- *; lia.
    + simpl; lia.
    + cbn [hd]. lra.
    + cbn [hd] in Hb. rewrite Hv in H2. injection H2 as <-. lra.
  - exfalso; lra.
  - apply (IH (y1 :: ys)); try assumption.
    + simpl in Hlen |- *; lia.
    + cbn [hd]; lra.
Qed.

(** At the first and at the last table point the interpolant is the table
    value. *)
Lemma linear_at_first (x0 x1 y0 y1 : R) (xs ys : list R) :
  x0 < x1 -> linear_at (x0 :: x1 :: xs) (y0 :: y1 :: ys) x0 = Some y0.
Proof.
  intros H. cbn [linear_at]. destruct (Rle_dec x0 x1); [|lra].
  f_equal. unfold Rdiv. rewrite Rminus_diag. lra.
Qed.

Lemma linear_at_last (xs ys : list R) :
  increasing xs -> length xs = length ys -> (2 <= length xs)%nat ->
  linear_at xs ys (last xs 0) = Some (last ys 0).
Proof.
  revert ys; induction xs as [|x0 xs IH]; intros ys Hx Hlen H2;
    [simpl in H2; lia|].
  destruct xs as [|x1 xs]; [simpl in H2; lia|].
  destruct ys as [|y0 [|y1 ys]]; try discriminate.
  destruct Hx as [Hx01 Hx].
  change (last (x0 :: x1 :: xs) 0) with (last (x1 :: xs) 0).
  change (last (y0 :: y1 :: ys) 0) with (last (y1 :: ys) 0).
  rewrite linear_at_cons.
  pose proof (increasing_hd_last x1 xs Hx) as Hl.
  destruct (Rle_dec (last (x1 :: xs) 0) x1) as [Hle|Hgt].
  - destruct xs as [|x2 xs].
    + destruct ys as [|y2 ys]; [|discriminate]. simpl. f_equal. field. lra.
    + exfalso. destruct Hx as [Hx12 Hx].
      pose proof (increasing_hd_last x2 xs Hx) as Hl2.
      change (last (x1 :: x2 :: xs) 0) with (last (x2 :: xs) 0) in Hle. lra.
  - destruct xs as [|x2 xs]; [simpl in Hgt; lra|].
    apply (IH (y1 :: ys)); [assumption | simpl in Hlen |- *; lia | simpl; lia].
Qed.

(** ** The table *)

Lemma table_x_increasing : increasing table_x.
Proof.
  unfold table_x; cbn [increasing]. repeat (split; [lra|]). exact I.
Qed.

Lemma table_y_nondecreasing : nondecreasing table_y.
Proof.
  unfold table_y; cbn [nondecreasing]. repeat (split; [lra|]). exact I.
Qed.

Lemma table_y_range :
  Forall (fun y => 2.86651572e-07 <= y <= 0.999999521) table_y.
Proof.
  unfold table_y. repeat (apply Forall_cons; [lra|]). apply Forall_nil.
Qed.


Lemma hd_table_y : hd 0 table_y = 2.86651572e-07.
Proof. reflexivity. Qed.

Lemma last_table_y : last table_y 0 = 9.99999521e-01.
Proof. reflexivity. Qed.

(** ** [cdf_table] over the piecewise-linear routine *)

Lemma linear_returns_array (outside : R -> R) :
  returns_array (interpolate1d_linear outside).
Proof.
  intros q. eexists. split; [reflexivity | apply length_map].
Qed.

Lemma cdf_table_linear_scalar (outside : R -> R) (z : R) :
  cdf_table (interpolate1d_linear outside) (Scalar z)
  = Ok (Scalar (clamp z (linear_point outside table_x table_y z))).
Proof.
  destruct (cdf_table_scalar_ok _ (linear_returns_array outside) z)
    as [v [Hv ->]].
  unfold interpolate1d_linear in Hv; cbn [map] in Hv. now injection Hv as <-.
Qed.

Lemma cdf_table_linear_array (outside : R -> R) (l : list R) :
  cdf_table (interpolate1d_linear outside) (Array l)
  = Ok (Array (map (fun z => clamp z (linear_point outside table_x table_y z)) l)).
Proof.
  destruct (cdf_table_array_ok _ (linear_returns_array outside) l)
    as [r [Hr [_ ->]]].
  unfold interpolate1d_linear in Hr. injection Hr as <-.
  now rewrite map2_map_same.
Qed.

(** Inside the table's domain the routine returns the interpolant, which
    lies between the first and the last table value. *)
Lemma linear_point_inside (outside : R -> R) (z : R) :
  -5.00 <= z <= 4.90 ->
  linear_at table_x table_y z
  = Some (linear_point outside table_x table_y z)
  /\ 2.86651572e-07 <= linear_point outside table_x table_y z <= 0.999999521.
Proof.
  intros Hz. unfold linear_point. rewrite hd_table_x, last_table_x.
  unfold gtb, ltb.
  destruct (Rlt_dec z (-5.00)); [lra|]. destruct (Rlt_dec 4.90 z); [lra|].
  cbn [orb].
  destruct (linear_at_bounds table_x table_y z) as [v [-> Hv]].
  - apply table_x_increasing.
  - apply table_y_nondecreasing.
  - reflexivity.
  - cbn; lia.
  - now rewrite hd_table_x, last_table_x.
  - rewrite hd_table_y, last_table_y in Hv. split; [reflexivity | lra].
Qed.

Lemma linear_at_table_first :
  linear_at table_x table_y (-5.00) = Some 2.86651572e-07.
Proof. unfold table_x, table_y. apply linear_at_first. lra. Qed.

Lemma linear_at_table_last :
  linear_at table_x table_y 4.90 = Some 9.99999521e-01.
Proof.
  rewrite <- last_table_x, <- last_table_y. apply linear_at_last.
  - apply table_x_increasing.
  - reflexivity.
  - cbn; lia.
Qed.

Lemma cdf_table_at_lower_end (outside : R -> R) :
  cdf_table (interpolate1d_linear outside) (Scalar (-5.00))
  = Ok (Scalar 2.86651572e-07).
Proof.
  rewrite cdf_table_linear_scalar, clamp_inside by lra. do 2 f_equal.
  destruct (linear_point_inside outside (-5.00)) as [H _]; [lra|].
  rewrite linear_at_table_first in H. now injection H as <-.
Qed.

Lemma cdf_table_at_upper_end (outside : R -> R) :
  cdf_table (interpolate1d_linear outside) (Scalar 4.90)
  = Ok (Scalar 0.999999521).
Proof.
  rewrite cdf_table_linear_scalar, clamp_inside by lra. do 2 f_equal.
  destruct (linear_point_inside outside 4.90) as [H _]; [lra|].
  rewrite linear_at_table_last in H. injection H as <-. lra.
Qed.

(** C4.  At the two end points of the table no clamp applies and
    [cdf_table] returns the table's own end values: the first entry,
    [2.86651572e-07], at [-5.00] and the last entry, [0.999999521], at
    [4.90]. *)
Theorem cdf_table_endpoints (outside : R -> R) :
  cdf_table (interpolate1d_linear outside) (Scalar (-5.00))
  = Ok (Scalar 2.86651572e-07)
  /\ cdf_table (interpolate1d_linear outside) (Scalar 4.90)
     = Ok (Scalar 0.999999521).
Proof.
  split; [apply cdf_table_at_lower_end | apply cdf_table_at_upper_end].
Qed.

(** C4, as stated, fails at [-5.00]: the value there is the first table
    entry, which is not 0, whatever the routine does outside the domain. *)
Lemma cdf_table_lower_endpoint_not_zero :
  exists v : R,
    (forall outside : R -> R,
        cdf_table (interpolate1d_linear outside) (Scalar (-5.00))
        = Ok (Scalar v))
    /\ v <> 0.
Proof.
  exists 2.86651572e-07. split; [apply cdf_table_at_lower_end | lra].
Qed.

(** The interpolant at a point of the domain is taken on a segment between
    two neighbouring table points and lies between their values. *)
Lemma linear_at_segment (xs ys : list R) (z : R) :
  increasing xs -> nondecreasing ys -> length xs = length ys ->
  (2 <= length xs)%nat -> hd 0 xs <= z <= last xs 0 ->
  exists (j : nat) (xj xj1 yj yj1 v : R),
    nth_error xs j = Some xj /\ nth_error xs (S j) = Some xj1
    /\ nth_error ys j = Some yj /\ nth_error ys (S j) = Some yj1
    /\ xj <= z <= xj1
    /\ linear_at xs ys z = Some v
    /\ Rmin yj yj1 <= v <= Rmax yj yj1.
Proof.
  revert ys; induction xs as [|x0 xs IH]; intros ys Hx Hy Hlen H2 Hz;
    [simpl in H2; lia|].
  destruct xs as [|x1 xs]; [simpl in H2; lia|].
  destruct ys as [|y0 [|y1 ys]]; try discriminate.
  rewrite linear_at_cons. cbn [hd] in Hz.
  destruct Hx as [Hx01 Hx], Hy as [Hy01 Hy].
  change (last (x0 :: x1 :: xs) 0) with (last (x1 :: xs) 0) in Hz.
  destruct (Rle_dec z x1) as [Hle|Hgt].
  - exists 0%nat, x0, x1, y0, y1. eexists. cbn [nth_error].
    repeat split; try reflexivity; try lra.
    + rewrite Rmin_left by lra.
      apply (segment_bounds x0 x1 y0 y1 z); [lra | lra | lra].
    + rewrite Rmax_right by lra.
      apply (segment_bounds x0 x1 y0 y1 z); [lra | lra | lra].
  - destruct xs as [|x2 xs]; [simpl in Hz; lra|].
    destruct (IH (y1 :: ys)) as (j & xj & xj1 & yj & yj1 & v & H); try assumption.
    + simpl in Hlen |- *; lia.
    + simpl; lia.
    + cbn [hd]; lra.
    + exists (S j), xj, xj1, yj, yj1, v. exact H.
Qed.

(** ** [cdf_table] stays within [0, 1] *)

Lemma map2_nth_error_inv {A B C : Type} (f : A -> B -> C) (l1 : list A)
      (l2 : list B) (i : nat) (c : C) :
  nth_error (map2 f l1 l2) i = Some c ->
  exists a b, nth_error l1 i = Some a /\ nth_error l2 i = Some b /\ c = f a b.
Proof.
  revert l2 i; induction l1 as [|x l1 IH]; intros [|y l2] [|i] H;
    simpl in *; try discriminate.
  - injection H as <-. now exists x, y.
  - now apply IH.
Qed.

Lemma table_y_unit (j : nat) (y : R) :
  nth_error table_y j = Some y -> 0 <= y <= 1.
Proof.
  intros H. apply nth_error_In in H.
  pose proof table_y_range as Hr. rewrite Forall_forall in Hr.
  specialize (Hr y H). lra.
Qed.

Section UnitInterval.

Variable interp : interpolator.
Hypothesis interp_between : between_neighbours interp.

Lemma between_returns_array : returns_array interp.
Proof.
  intros q. destruct (interp_between q) as [r [Hr [Hlen _]]]. now exists r.
Qed.

Lemma clamp_unit (q r : list R) (i : nat) (z v : R) :
  interp table_x table_y q = Ok r ->
  nth_error q i = Some z -> nth_error r i = Some v ->
  0 <= clamp z v <= 1.
Proof.
  intros Hr Hz Hv.
  destruct (Rlt_dec z (-5.00)) as [Hlo|Hlo];
    [rewrite clamp_below by assumption; lra|].
  destruct (Rlt_dec 4.90 z) as [Hhi|Hhi];
    [rewrite clamp_above by assumption; lra|].
  rewrite clamp_inside by lra.
  destruct (interp_between q) as [r' [Hr' [_ Hb]]].
  rewrite Hr in Hr'. injection Hr' as <-.
  destruct (Hb i z v Hz Hv) as (j & xj & xj1 & yj & yj1 & _ & _ & Hj & Hj1 & _ & Hm).
  { rewrite hd_table_x, last_table_x. lra. }
  apply table_y_unit in Hj, Hj1.
  revert Hm. unfold Rmin, Rmax. destruct (Rle_dec yj yj1); lra.
Qed.

(** C10.  When the interpolation routine returns, at every query inside
    the table's domain, a value between the two neighbouring table
    entries, every value [cdf_table] returns lies in [[0, 1]]: the table
    values all lie in [[2.86651572e-07, 0.999999521]], and outside the
    domain the result is 0 or 1. *)
Theorem cdf_table_unit_interval :
  Forall (fun y => 2.86651572e-07 <= y <= 0.999999521) table_y
  /\ (forall z, exists v,
         cdf_table interp (Scalar z) = Ok (Scalar v) /\ 0 <= v <= 1)
  /\ (forall l, exists out,
         cdf_table interp (Array l) = Ok (Array out)
         /\ Forall (fun v => 0 <= v <= 1) out).
Proof.
  split; [apply table_y_range|]. split.
  - intros z.
    destruct (cdf_table_scalar_ok interp between_returns_array z)
      as [v [Hv ->]].
    eexists. split; [reflexivity|].
    now apply (clamp_unit [z] [v] 0%nat).
  - intros l.
    destruct (cdf_table_array_ok interp between_returns_array l)
      as [r [Hr [_ ->]]].
    eexists. split; [reflexivity|].
    apply Forall_forall. intros c Hc.
    apply In_nth_error in Hc. destruct Hc as [i Hi].
    apply map2_nth_error_inv in Hi. destruct Hi as (z & v & Hz & Hv & ->).
    now apply (clamp_unit l r i).
Qed.

End UnitInterval.

(** The piecewise-linear routine is one such routine. *)
Lemma linear_between_neighbours (outside : R -> R) :
  between_neighbours (interpolate1d_linear outside).
Proof.
  intros q. eexists. split; [reflexivity|]. split; [apply length_map|].
  intros i z v Hz Hv Hdom.
  rewrite nth_error_map, Hz in Hv. cbn in Hv. injection Hv as <-.
  rewrite hd_table_x, last_table_x in Hdom.
  destruct (linear_point_inside outside z Hdom) as [Hp _].
  destruct (linear_at_segment table_x table_y z)
    as (j & xj & xj1 & yj & yj1 & v & H1 & H2 & H3 & H4 & H5 & H6 & H7).
  - apply table_x_increasing.
  - apply table_y_nondecreasing.
  - reflexivity.
  - cbn; lia.
  - now rewrite hd_table_x, last_table_x.
  - rewrite Hp in H6. injection H6 as ->.
    exists j, xj, xj1, yj, yj1. repeat split; assumption || lra.
Qed.

Lemma cdf_table_unit_interval_witness :
  Forall (fun y => 2.86651572e-07 <= y <= 0.999999521) table_y
  /\ (forall z, exists v,
         cdf_table (interpolate1d_linear (fun _ => 0)) (Scalar z)
         = Ok (Scalar v) /\ 0 <= v <= 1)
  /\ (forall l, exists out,
         cdf_table (interpolate1d_linear (fun _ => 0)) (Array l)
         = Ok (Array out)
         /\ Forall (fun v => 0 <= v <= 1) out).
Proof.
  apply (cdf_table_unit_interval (interpolate1d_linear (fun _ => 0))).
  apply linear_between_neighbours.
Defined.

Lemma cdf_table_clamps_outside_witness :
  cdf_table (interpolate1d_linear (fun z => z)) (Scalar (-10)) = Ok (Scalar 0)
  /\ cdf_table (interpolate1d_linear (fun z => z)) (Scalar 10) = Ok (Scalar 1).
Proof.
  destruct (cdf_table_clamps_outside (interpolate1d_linear (fun z => z))
              (linear_returns_array (fun z => z))) as [Hlo [Hhi _]].
  split; [apply Hlo; lra | apply Hhi; lra].
Defined.

(** ** Shape preservation *)

Lemma cdf_outcome (x : value) (mu sigma : R) (kind : string) :
  In kind kinds ->
  outcome (cdf x mu sigma kind)
  = Ok (cdf_normal_value
          (if String.eqb kind "lognormal" then vmap ln x else x) mu sigma).
Proof.
  intros [<-|[<-|[]]]; unfold cdf.
  - now rewrite cdf_rec_normal.
  - now rewrite cdf_rec_lognormal.
Qed.

Lemma cdf_normal_value_scalar (x mu sigma : R) :
  cdf_normal_value (Scalar x) mu sigma
  = Scalar ((1 + erf_ref ((x - mu) / (sigma * sqrt 2))) / 2).
Proof. reflexivity. Qed.

Lemma cdf_normal_value_array (l : list R) (mu sigma : R) :
  cdf_normal_value (Array l) mu sigma
  = Array (map (fun x => (1 + erf_ref ((x - mu) / (sigma * sqrt 2))) / 2) l).
Proof. unfold cdf_normal_value; cbn [vmap]. now rewrite !map_map. Qed.

(** The functions on a caller's argument and on the numpy value it
    denotes. *)
Lemma erf_py_value (z : pyarg) : erf_py z = erf (as_value z).
Proof. destruct z; reflexivity. Qed.

Lemma cdf_table_py_value (interp : interpolator) (z : pyarg) :
  cdf_table_py interp z = cdf_table interp (as_value z).
Proof. destruct z; reflexivity. Qed.

Lemma tbind_assert_true {A : Type} (msg : string) (k : unit -> traced A) :
  (_ <~ assert true msg ;; k tt) = k tt.
Proof. cbn. now destruct (k tt). Qed.

(** On a float or a numpy array [cdf] does what its numpy reading does. *)
Lemma cdf_py_value (x : pyarg) (mu sigma : R) (kind : string) :
  In kind kinds -> (forall l, x <> PyList l) ->
  outcome (cdf_py x mu sigma kind) = outcome (cdf (as_value x) mu sigma kind).
Proof.
  intros Hk Hx. rewrite cdf_outcome by assumption.
  assert (Hv : py_arith (fun xi => xi - mu) x
               = Ok (vmap (fun xi => xi - mu) (as_value x))).
  { destruct x as [r|l|l]; try reflexivity. now contradiction (Hx l). }
  destruct Hk as [<-|[<-|[]]]; unfold cdf_py, outcome.
  - cbn [kind_in kinds existsb String.eqb Ascii.eqb Bool.eqb orb assert ret
         tbind invoke app lift]. rewrite Hv. cbn [tbind].
    rewrite erf_vmap. cbn [tbind snd]. unfold cdf_normal_value.
    destruct x as [r|l|l]; cbn [as_value vmap];
      [reflexivity | now contradiction (Hx l) | now rewrite !map_map].
  - cbn [kind_in kinds existsb String.eqb Ascii.eqb Bool.eqb orb assert ret
         tbind invoke app lift].
    unfold cdf. rewrite cdf_rec_normal. reflexivity.
Qed.

(** The normal case on a list stops at [x - mu], before any call. *)
Lemma cdf_py_list (l : list R) (mu sigma : R) :
  cdf_py (PyList l) mu sigma "normal" = ([], Raise TypeError).
Proof. reflexivity. Qed.

Section Shape.

Variable interp : interpolator.
Hypothesis interp_array : returns_array interp.

(** C7.  A float argument gives a scalar result and a numpy array gives an
    array of the same length, for [erf], for [cdf] (with any [mu], [sigma]
    and either allowed [kind], the defaults among them) and for
    [cdf_table]; a plain list gives an array of the same length for [erf]
    and for [cdf_table], which convert it. *)
Theorem shape_preserved :
  (forall x : R,
      (exists v, erf_py (PyFloat x) = Ok (Scalar v))
      /\ (exists v, outcome (cdf_py (PyFloat x) 0 1 "normal") = Ok (Scalar v))
      /\ (forall mu sigma kind, In kind kinds ->
            exists v, outcome (cdf_py (PyFloat x) mu sigma kind)
                      = Ok (Scalar v))
      /\ (exists v, cdf_table_py interp (PyFloat x) = Ok (Scalar v)))
  /\ (forall l : list R,
         (exists out, erf_py (NdArray l) = Ok (Array out)
                      /\ length out = length l)
         /\ (exists out, outcome (cdf_py (NdArray l) 0 1 "normal")
                         = Ok (Array out)
                         /\ length out = length l)
         /\ (forall mu sigma kind, In kind kinds ->
               exists out, outcome (cdf_py (NdArray l) mu sigma kind)
                           = Ok (Array out)
                           /\ length out = length l)
         /\ (exists out, cdf_table_py interp (NdArray l) = Ok (Array out)
                         /\ length out = length l))
  /\ (forall l : list R,
         (exists out, erf_py (PyList l) = Ok (Array out)
                      /\ length out = length l)
         /\ (exists out, cdf_table_py interp (PyList l) = Ok (Array out)
                         /\ length out = length l)).
Proof.
  assert (Hs : forall x mu sigma kind, In kind kinds ->
            exists v, outcome (cdf_py (PyFloat x) mu sigma kind)
                      = Ok (Scalar v)).
  { intros x mu sigma kind Hk.
    rewrite cdf_py_value by (assumption || discriminate).
    rewrite cdf_outcome by assumption. cbn [as_value].
    destruct (String.eqb kind "lognormal"); cbn [vmap];
      rewrite cdf_normal_value_scalar; eexists; reflexivity. }
  assert (Ha : forall l mu sigma kind, In kind kinds ->
            exists out, outcome (cdf_py (NdArray l) mu sigma kind)
                        = Ok (Array out)
                        /\ length out = length l).
  { intros l mu sigma kind Hk.
    rewrite cdf_py_value by (assumption || discriminate).
    rewrite cdf_outcome by assumption. cbn [as_value].
    destruct (String.eqb kind "lognormal"); cbn [vmap];
      rewrite cdf_normal_value_array; eexists; split; try reflexivity;
      now rewrite !length_map. }
  assert (He : forall l, exists out, erf (Array l) = Ok (Array out)
                                     /\ length out = length l).
  { intros l. rewrite erf_array.
    eexists; split; [reflexivity | apply length_map]. }
  assert (Ht : forall l, exists out, cdf_table interp (Array l) = Ok (Array out)
                                     /\ length out = length l).
  { intros l.
    destruct (cdf_table_array_ok interp interp_array l) as [r [_ [Hlen ->]]].
    eexists; split; [reflexivity|].
    rewrite map2_length; [reflexivity | now symmetry]. }
  split; [|split].
  - intros x. repeat split.
    + rewrite erf_py_value. cbn [as_value]. rewrite erf_scalar.
      eexists; reflexivity.
    + apply Hs. cbn; auto.
    + apply Hs.
    + rewrite cdf_table_py_value. cbn [as_value].
      destruct (cdf_table_scalar_ok interp interp_array x) as [v [_ ->]].
      eexists; reflexivity.
  - intros l. repeat split.
    + rewrite erf_py_value. apply He.
    + apply Ha. cbn; auto.
    + apply Ha.
    + rewrite cdf_table_py_value. apply Ht.
  - intros l. split.
    + rewrite erf_py_value. apply He.
    + rewrite cdf_table_py_value. apply Ht.
Qed.

End Shape.

Lemma shape_preserved_witness :
  (exists v, erf_py (PyFloat 1) = Ok (Scalar v))
  /\ (exists v, outcome (cdf_py (PyFloat 1) 0 1 "normal") = Ok (Scalar v))
  /\ (exists v, cdf_table_py (interpolate1d_linear (fun z => z)) (PyFloat 1)
                = Ok (Scalar v))
  /\ (exists out, erf_py (NdArray [1; 2; 3]) = Ok (Array out)
                  /\ length out = 3%nat)
  /\ (exists out, outcome (cdf_py (NdArray [1; 2; 3]) 0 1 "normal")
                  = Ok (Array out)
                  /\ length out = 3%nat)
  /\ (exists out, cdf_table_py (interpolate1d_linear (fun z => z))
                               (NdArray [1; 2; 3]) = Ok (Array out)
                  /\ length out = 3%nat)
  /\ (exists out, erf_py (PyList [1; 2; 3]) = Ok (Array out)
                  /\ length out = 3%nat)
  /\ (exists out, cdf_table_py (interpolate1d_linear (fun z => z))
                               (PyList [1; 2; 3]) = Ok (Array out)
                  /\ length out = 3%nat).
Proof.
  destruct (shape_preserved (interpolate1d_linear (fun z => z))
              (linear_returns_array (fun z => z))) as (Hs & Ha & Hl).
  destruct (Hs 1) as (H1 & H2 & _ & H3).
  destruct (Ha [1; 2; 3]) as (H4 & H5 & _ & H6).
  destruct (Hl [1; 2; 3]) as (H7 & H8).
  repeat split; assumption.
Defined.

(** C7, as stated, fails for [cdf] on a plain list: [cdf([1, 2, 3])] raises
    [TypeError] at [x - mu], having called nothing, and returns no
    sequence. *)
Lemma cdf_on_list_raises :
  outcome (cdf_py (PyList [1; 2; 3]) 0 1 "normal") = Raise TypeError
  /\ calls (cdf_py (PyList [1; 2; 3]) 0 1 "normal") = [].
Proof. rewrite cdf_py_list. split; reflexivity. Qed.

(** ** Monotonicity of the Horner polynomial on [[0, 1]] *)

Lemma Qmin2_le_l (x y : Q) : Q2R (Qmin2 x y) <= Q2R x.
Proof.
  unfold Qmin2. destruct (Qle_bool x y) eqn:E; [lra|].
  apply Qle_Rle. apply Qlt_le_weak. apply Qnot_le_lt.
  intros H. apply Qle_bool_iff in H. congruence.
Qed.

Lemma Qmin2_le_r (x y : Q) : Q2R (Qmin2 x y) <= Q2R y.
Proof.
  unfold Qmin2. destruct (Qle_bool x y) eqn:E; [|lra].
  apply Qle_Rle. now apply Qle_bool_iff.
Qed.

(** A bound below both end values of a linear function bounds it on the
    whole interval. *)
Lemma linear_lower (a b t v m : R) :
  a <= t <= b -> m <= a * v -> m <= b * v -> m <= t * v.
Proof.
  intros Ht Ha Hb. destruct (Rle_dec 0 v) as [Hv|Hv].
  - assert (0 <= (t - a) * v) by (apply Rmult_le_pos; lra). lra.
  - assert (0 <= (b - t) * (- v)) by (apply Rmult_le_pos; lra). lra.
Qed.

Lemma Qmin2_linear (a b v : Q) (t : R) :
  Q2R a <= t <= Q2R b -> Q2R (Qmin2 (a * v) (b * v)) <= t * Q2R v.
Proof.
  intros Ht. apply (linear_lower (Q2R a) (Q2R b)); [assumption| |].
  - rewrite <- Q2R_mult. apply Qmin2_le_l.
  - rewrite <- Q2R_mult. apply Qmin2_le_r.
Qed.

Lemma lower_bounds_sound (cs : list Q) (a b : Q) :
  0 <= Q2R a ->
  (forall t, Q2R a <= t <= Q2R b ->
             Q2R (fst (lower_bounds cs a b)) <= horner (map Q2R cs) t)
  /\ (forall s t, Q2R a <= s -> s <= t -> t <= Q2R b ->
                  (t - s) * Q2R (snd (lower_bounds cs a b))
                  <= horner (map Q2R cs) t - horner (map Q2R cs) s).
Proof.
  intros Ha. induction cs as [|c cs [IHv IHd]].
  - cbn. split; intros; change (Q2R 0) with (0 * / 1); lra.
  - cbn [lower_bounds map horner].
    destruct (lower_bounds cs a b) as [lo dlo]. cbn [fst snd] in *.
    split.
    + intros t Ht. specialize (IHv t Ht).
      apply Rle_trans with (t * Q2R (c + lo)).
      * now apply Qmin2_linear.
      * rewrite Q2R_plus. apply Rmult_le_compat_l; lra.
    + intros s t Hs Hst Ht.
      specialize (IHv t (conj (Rle_trans _ _ _ Hs Hst) Ht)).
      specialize (IHd s t Hs Hst Ht).
      pose proof (Qmin2_linear a b dlo s (conj Hs (Rle_trans _ _ _ Hst Ht)))
        as Hm.
      rewrite !Q2R_plus.
      set (hs := horner (map Q2R cs) s) in *.
      set (ht := horner (map Q2R cs) t) in *.
      set (m := Q2R (Qmin2 (a * dlo) (b * dlo))) in *.
      replace (t * (Q2R c + ht) - s * (Q2R c + hs))
        with ((t - s) * (Q2R c + ht) + s * (ht - hs)) by ring.
      rewrite Rmult_plus_distr_l.
      apply Rplus_le_compat.
      * apply Rmult_le_compat_l; lra.
      * apply Rle_trans with (s * ((t - s) * Q2R dlo)).
        -- replace (s * ((t - s) * Q2R dlo)) with ((t - s) * (s * Q2R dlo))
             by ring.
           apply Rmult_le_compat_l; lra.
        -- apply Rmult_le_compat_l; lra.
Qed.

Lemma Q2R_grid_point (n : positive) (i : nat) :
  Q2R (grid_point n i) = INR i / IZR (Zpos n).
Proof. unfold grid_point, Q2R; cbn. now rewrite INR_IZR_INZ. Qed.

Lemma grid_point_nonneg (n : positive) (i : nat) : 0 <= Q2R (grid_point n i).
Proof.
  rewrite Q2R_grid_point. apply Rmult_le_pos; [apply pos_INR|].
  left. apply Rinv_0_lt_compat. now apply IZR_lt.
Qed.

Lemma grid_point_le (n : positive) (i : nat) :
  Q2R (grid_point n i) <= Q2R (grid_point n (S i)).
Proof.
  rewrite !Q2R_grid_point. apply Rmult_le_compat_r.
  - left. apply Rinv_0_lt_compat. now apply IZR_lt.
  - rewrite S_INR. lra.
Qed.

(** When the checker accepts the first [k] intervals, the polynomial is
    non-decreasing from [0] to [k/n]. *)
Lemma slopes_nonneg_sound (cs : list Q) (n : positive) (k : nat) :
  slopes_nonneg cs n k = true ->
  forall s t, 0 <= s -> s <= t -> t <= Q2R (grid_point n k) ->
              horner (map Q2R cs) s <= horner (map Q2R cs) t.
Proof.
  unfold slopes_nonneg. induction k as [|k IH]; intros Hk s t Hs Hst Ht.
  - assert (Hz : Q2R (grid_point n 0) = 0)
      by (rewrite Q2R_grid_point; cbn; lra).
    assert (s = t) by lra. subst. lra.
  - rewrite seq_S, forallb_app in Hk. apply andb_prop in Hk.
    destruct Hk as [Hk Hlast]. cbn [forallb] in Hlast.
    rewrite andb_true_r in Hlast. cbn [Nat.add] in Hlast.
    specialize (IH Hk).
    apply Qle_bool_iff, Qle_Rle in Hlast.
    change (Q2R 0) with (0 * / 1) in Hlast.
    destruct (lower_bounds_sound cs (grid_point n k) (grid_point n (S k))
                                 (grid_point_nonneg n k)) as [_ Hd].
    set (g := Q2R (grid_point n k)) in *.
    assert (Hstep : forall u w, g <= u -> u <= w ->
                      w <= Q2R (grid_point n (S k)) ->
                      horner (map Q2R cs) u <= horner (map Q2R cs) w).
    { intros u w Hu Huw Hw. specialize (Hd u w Hu Huw Hw).
      assert (0 <= (w - u) * Q2R (snd (lower_bounds cs (grid_point n k)
                                                   (grid_point n (S k)))))
        by (apply Rmult_le_pos; lra).
      lra. }
    pose proof (grid_point_nonneg n k) as Hg. fold g in Hg.
    pose proof (grid_point_le n k) as Hgg. fold g in Hgg.
    destruct (Rle_dec t g) as [Htg|Htg]; [now apply IH|].
    destruct (Rle_dec g s) as [Hgs|Hgs]; [apply Hstep; lra|].
    apply Rle_trans with (horner (map Q2R cs) g).
    + apply IH; lra.
    + apply Hstep; lra.
Qed.

Lemma Q2R_coefficients : map Q2R coefficientsQ = coefficients.
Proof.
  unfold coefficientsQ, coefficients. cbn [map].
  repeat (f_equal; [unfold Q2R; cbn; lra|]). reflexivity.
Qed.

(** [erf]'s polynomial is non-decreasing on [[0, 1]]. *)
Lemma poly_monotone (s t : R) : 0 <= s -> s <= t -> t <= 1 -> poly s <= poly t.
Proof.
  intros Hs Hst Ht. unfold poly. rewrite <- Q2R_coefficients.
  apply (slopes_nonneg_sound coefficientsQ 8 8); try assumption.
  - vm_compute. reflexivity.
  - rewrite Q2R_grid_point. cbn. lra.
Qed.

(** ** The approximation [erf_pos] *)

Lemma exp_le (x y : R) : x <= y -> exp x <= exp y.
Proof.
  intros [H| ->]; [left; now apply exp_increasing | lra].
Qed.

Lemma exp_le_inv (x : R) : x < 1 -> exp x <= / (1 - x).
Proof.
  intros Hx. pose proof (exp_ineq1_le (- x)) as H.
  rewrite <- (Ropp_involutive x) at 1. rewrite exp_Ropp.
  apply Rinv_le_contravar; lra.
Qed.

Lemma tval_range (z : R) : 0 < tval z <= 1.
Proof.
  unfold tval. pose proof (Rabs_pos z) as Hz.
  assert (H : 0 < / (1 + 0.5 * Rabs z)) by (apply Rinv_0_lt_compat; lra).
  split; [lra|]. unfold Rdiv. rewrite Rmult_1_l.
  rewrite <- Rinv_1 at 2. apply Rinv_le_contravar; lra.
Qed.

Lemma tval_decreasing (z1 z2 : R) :
  0 <= z1 -> z1 < z2 -> tval z2 < tval z1.
Proof.
  intros H1 H12. unfold tval, Rdiv. rewrite !Rmult_1_l.
  rewrite !Rabs_pos_eq by lra. apply Rinv_lt_contravar; [|lra].
  apply Rmult_lt_0_compat; lra.
Qed.

Lemma erf_pos_even (z : R) : erf_pos (- z) = erf_pos z.
Proof.
  unfold erf_pos, tval. rewrite Rabs_Ropp.
  replace ((- z) ^ 2) with (z ^ 2) by ring. reflexivity.
Qed.

(** On the non-negative numbers [erf_pos] is strictly increasing. *)
Lemma erf_pos_increasing (z1 z2 : R) :
  0 <= z1 -> z1 < z2 -> erf_pos z1 < erf_pos z2.
Proof.
  intros H1 H12. unfold erf_pos. cbv zeta.
  pose proof (tval_range z1) as Ht1. pose proof (tval_range z2) as Ht2.
  pose proof (tval_decreasing z1 z2 H1 H12) as Ht.
  assert (Hp : poly (tval z2) <= poly (tval z1))
    by (apply poly_monotone; lra).
  assert (Hsq : z1 ^ 2 <= z2 ^ 2).
  { cbn [pow]. rewrite !Rmult_1_r. apply Rmult_le_compat; lra. }
  set (E1 := - z1 ^ 2 - 1.26551223 + poly (tval z1)).
  set (E2 := - z2 ^ 2 - 1.26551223 + poly (tval z2)).
  assert (HE : exp E2 <= exp E1) by (apply exp_le; unfold E1, E2; lra).
  pose proof (exp_pos E2) as Hpos.
  assert (tval z2 * exp E2 < tval z1 * exp E1); [|lra].
  apply Rlt_le_trans with (tval z1 * exp E2).
  - apply Rmult_lt_compat_r; assumption.
  - apply Rmult_le_compat_l; lra.
Qed.

Lemma erf_pos_monotone (z1 z2 : R) :
  0 <= z1 -> z1 <= z2 -> erf_pos z1 <= erf_pos z2.
Proof.
  intros H1 [H| ->]; [left; now apply erf_pos_increasing | lra].
Qed.

Lemma poly_1 : poly 1 = 1.26551226.
Proof. unfold poly, coefficients; cbn [horner]. lra. Qed.

(** At zero the approximation is [1 - exp(3e-8)], slightly below zero. *)
Lemma erf_pos_0 : erf_pos 0 = 1 - exp 3e-8.
Proof.
  unfold erf_pos, tval. rewrite Rabs_R0.
  replace (1 / (1 + 0.5 * 0)) with 1 by lra. cbv zeta. rewrite poly_1.
  replace (- 0 ^ 2 - 1.26551223 + 1.26551226) with 3e-8 by lra. lra.
Qed.

Lemma erf_pos_0_bounds : -3.1e-8 < erf_pos 0 < -3e-8.
Proof.
  rewrite erf_pos_0. split.
  - pose proof (exp_le_inv 3e-8 ltac:(lra)) as H.
    assert (/ (1 - 3e-8) < 1 + 3.1e-8); [|lra].
    apply Rmult_lt_reg_l with (1 - 3e-8); [lra|].
    rewrite Rinv_r by lra. lra.
  - pose proof (exp_ineq1 3e-8 ltac:(lra)) as H. lra.
Qed.

(** Slightly right of zero it is still negative ... *)
Lemma erf_pos_1e8 : erf_pos 1e-8 <= 0.
Proof.
  unfold erf_pos, tval. rewrite Rabs_pos_eq by lra. cbv zeta.
  set (t := 1 / (1 + 0.5 * 1e-8)).
  set (E := - 1e-8 ^ 2 - 1.26551223 + poly t).
  assert (HE : 5e-9 <= E).
  { unfold E, poly, coefficients, t; cbn [horner]. lra. }
  pose proof (exp_ineq1_le E) as Hexp.
  assert (Ht : 0 < t) by (unfold t; lra).
  assert (H1 : t * (1 + 5e-9) = 1) by (unfold t; lra).
  assert (t * (1 + 5e-9) <= t * exp E)
    by (apply Rmult_le_compat_l; lra).
  lra.
Qed.

(** ... and from [7e-8] on it exceeds [3.1e-8]. *)
Lemma erf_pos_7e8 : 3.1e-8 <= erf_pos 7e-8.
Proof.
  unfold erf_pos, tval. rewrite Rabs_pos_eq by lra. cbv zeta.
  set (t := 1 / (1 + 0.5 * 7e-8)).
  set (E := - 7e-8 ^ 2 - 1.26551223 + poly t).
  assert (HE : E <= -1.3e-8).
  { unfold E, poly, coefficients, t; cbn [horner]. lra. }
  assert (Hexp : exp E <= / (1 + 1.3e-8)).
  { apply Rle_trans with (exp (-1.3e-8)); [now apply exp_le|].
    replace (1 + 1.3e-8) with (1 - -1.3e-8) by lra.
    apply exp_le_inv. lra. }
  assert (Ht : 0 < t) by (unfold t; lra).
  assert (t * exp E <= t * / (1 + 1.3e-8))
    by (apply Rmult_le_compat_l; lra).
  assert (t * / (1 + 1.3e-8) <= 1 - 3.1e-8) by (unfold t; lra).
  lra.
Qed.

(** ** [erf_ref] by sign *)

Lemma erf_ref_nonneg (z : R) : 0 <= z -> erf_ref z = erf_pos z.
Proof. intros H. unfold erf_ref. destruct (Rlt_dec z 0); [lra|reflexivity]. Qed.

Lemma erf_ref_neg (z : R) : z < 0 -> erf_ref z = - erf_pos (- z).
Proof.
  intros H. unfold erf_ref. destruct (Rlt_dec z 0); [|lra].
  now rewrite erf_pos_even.
Qed.

Lemma erf_ref_0 : erf_ref 0 = 1 - exp 3e-8.
Proof. rewrite erf_ref_nonneg by lra. apply erf_pos_0. Qed.

(** [erf_ref] is non-decreasing over every pair of arguments that does not
    straddle zero within [7e-8] of it. *)
Lemma erf_ref_monotone (s1 s2 : R) :
  s1 < s2 -> 0 <= s1 \/ s2 < 0 \/ s1 <= -7e-8 \/ 7e-8 <= s2 ->
  erf_ref s1 <= erf_ref s2.
Proof.
  intros H12 Hcase.
  pose proof erf_pos_0_bounds as H0. pose proof erf_pos_7e8 as H7.
  destruct (Rle_dec 0 s1) as [Hs1|Hs1].
  { rewrite !erf_ref_nonneg by lra. apply erf_pos_monotone; lra. }
  destruct (Rlt_dec s2 0) as [Hs2|Hs2].
  { rewrite !erf_ref_neg by lra.
    pose proof (erf_pos_monotone (- s2) (- s1)). lra. }
  rewrite (erf_ref_neg s1) by lra. rewrite (erf_ref_nonneg s2) by lra.
  pose proof (erf_pos_monotone 0 (- s1)) as Ha.
  pose proof (erf_pos_monotone 0 s2) as Hb.
  destruct Hcase as [Hc|[Hc|[Hc|Hc]]]; try lra.
  - pose proof (erf_pos_monotone 7e-8 (- s1)). lra.
  - pose proof (erf_pos_monotone 7e-8 s2). lra.
Qed.

(** ** [cdf] with its default parameters *)

Lemma sqrt2_bounds : 1 <= sqrt 2 <= 10 / 7.
Proof.
  assert (H2 : sqrt 2 * sqrt 2 = 2) by (apply sqrt_sqrt; lra).
  assert (H0 : 0 <= sqrt 2) by apply sqrt_pos.
  split.
  - destruct (Rle_dec 1 (sqrt 2)) as [H|H]; [assumption|exfalso].
    assert (sqrt 2 * sqrt 2 <= 1 * 1) by (apply Rmult_le_compat; lra). lra.
  - destruct (Rle_dec (sqrt 2) (10 / 7)) as [H|H]; [assumption|exfalso].
    assert (10 / 7 * (10 / 7) <= sqrt 2 * sqrt 2)
      by (apply Rmult_le_compat; lra). lra.
Qed.

Lemma cdf_default_scalar (z : R) :
  outcome (cdf_default (Scalar z))
  = Ok (Scalar ((1 + erf_ref (z / sqrt 2)) / 2)).
Proof.
  unfold cdf_default. rewrite cdf_outcome by (cbn; auto).
  cbn [String.eqb Ascii.eqb Bool.eqb]. rewrite cdf_normal_value_scalar.
  do 5 f_equal. unfold Rdiv. now rewrite Rminus_0_r, Rmult_1_l.
Qed.

Lemma scaled_lt (z1 z2 : R) : z1 < z2 -> z1 / sqrt 2 < z2 / sqrt 2.
Proof.
  intros H. pose proof sqrt2_bounds as Hs.
  apply Rmult_lt_compat_r; [apply Rinv_0_lt_compat; lra | assumption].
Qed.

Lemma scaled_0 : 0 / sqrt 2 = 0.
Proof. unfold Rdiv. apply Rmult_0_l. Qed.

Lemma inv_sqrt2_bounds : 0.7 <= / sqrt 2 <= 1.
Proof.
  pose proof sqrt2_bounds as Hs. split.
  - replace 0.7 with (/ (10 / 7)) by lra. apply Rinv_le_contravar; lra.
  - rewrite <- Rinv_1. apply Rinv_le_contravar; lra.
Qed.

Lemma erf_at_zero : erf (Scalar 0) = Ok (Scalar (1 - exp 3e-8)).
Proof. now rewrite erf_scalar, erf_ref_0. Qed.

Lemma cdf_at_zero :
  outcome (cdf_default (Scalar 0)) = Ok (Scalar ((1 + (1 - exp 3e-8)) / 2)).
Proof. now rewrite cdf_default_scalar, scaled_0, erf_ref_0. Qed.

Lemma erf_at_zero_bounds : -3.1e-8 < 1 - exp 3e-8 < -3e-8.
Proof. rewrite <- erf_pos_0. apply erf_pos_0_bounds. Qed.

(** C5.  At zero the approximation is not exact: [erf(0)] is
    [1 - exp(3e-8)], between [-3.1e-8] and [-3e-8], and [cdf(0)] is
    [(1 + erf(0))/2], between [0.5 - 1.6e-8] and [0.5 - 1.5e-8]; both are
    within [1e-7] of the ideal values 0 and 0.5. *)
Theorem erf_cdf_at_zero :
  erf (Scalar 0) = Ok (Scalar (1 - exp 3e-8))
  /\ outcome (cdf_default (Scalar 0)) = Ok (Scalar ((1 + (1 - exp 3e-8)) / 2))
  /\ -3.1e-8 < 1 - exp 3e-8 < -3e-8
  /\ 0.5 - 1.6e-8 < (1 + (1 - exp 3e-8)) / 2 < 0.5 - 1.5e-8.
Proof.
  pose proof erf_at_zero_bounds as H.
  split; [apply erf_at_zero|]. split; [apply cdf_at_zero|].
  split; [exact H|]. lra.
Qed.

(** C5, as stated, fails: [erf(0)] is not 0 and [cdf(0)] is not 0.5. *)
Lemma erf_cdf_at_zero_inexact :
  exists v w : R,
    erf (Scalar 0) = Ok (Scalar v)
    /\ outcome (cdf_default (Scalar 0)) = Ok (Scalar w)
    /\ v <> 0 /\ w <> 0.5.
Proof.
  pose proof erf_at_zero_bounds as H.
  exists (1 - exp 3e-8), ((1 + (1 - exp 3e-8)) / 2).
  split; [apply erf_at_zero|]. split; [apply cdf_at_zero|]. split; lra.
Qed.

(** C8.  [erf(-z)] and [-erf(z)] differ by less than [1e-6] for every
    [z]; away from zero they are equal. *)
Theorem erf_odd (z : R) :
  exists a b : R,
    erf (Scalar (- z)) = Ok (Scalar a)
    /\ erf (Scalar z) = Ok (Scalar b)
    /\ Rabs (a - - b) < 1e-6
    /\ (z <> 0 -> a = - b).
Proof.
  exists (erf_ref (- z)), (erf_ref z). rewrite !erf_scalar.
  split; [reflexivity|]. split; [reflexivity|].
  destruct (Rtotal_order z 0) as [Hz|[->|Hz]].
  - rewrite (erf_ref_neg z) by assumption.
    rewrite (erf_ref_nonneg (- z)) by lra.
    split; [|intros _; lra].
    replace (erf_pos (- z) - - - erf_pos (- z)) with 0 by lra.
    rewrite Rabs_R0. lra.
  - rewrite Ropp_0, erf_ref_nonneg by lra.
    pose proof erf_pos_0_bounds as H.
    split; [|intros Hn; now contradiction Hn].
    apply Rabs_def1; lra.
  - rewrite (erf_ref_neg (- z)) by lra. rewrite Ropp_involutive.
    rewrite (erf_ref_nonneg z) by lra.
    split; [|intros _; lra].
    replace (- erf_pos z - - erf_pos z) with 0 by lra.
    rewrite Rabs_R0. lra.
Qed.

(** ** Monotonicity *)

Lemma clamped_range (outside : R -> R) (z : R) :
  0 <= clamp z (linear_point outside table_x table_y z) <= 1.
Proof.
  destruct (Rlt_dec z (-5.00)) as [Hlo|Hlo];
    [rewrite clamp_below by assumption; lra|].
  destruct (Rlt_dec 4.90 z) as [Hhi|Hhi];
    [rewrite clamp_above by assumption; lra|].
  rewrite clamp_inside by lra.
  destruct (linear_point_inside outside z) as [_ H]; lra.
Qed.

Lemma clamped_monotone (outside : R -> R) (z1 z2 : R) :
  z1 < z2 ->
  clamp z1 (linear_point outside table_x table_y z1)
  <= clamp z2 (linear_point outside table_x table_y z2).
Proof.
  intros H12.
  pose proof (clamped_range outside z1) as R1.
  pose proof (clamped_range outside z2) as R2.
  destruct (Rlt_dec z1 (-5.00)) as [Hlo|Hlo];
    [rewrite (clamp_below z1) by assumption; lra|].
  destruct (Rlt_dec 4.90 z2) as [Hhi|Hhi];
    [rewrite (clamp_above z2) by assumption; lra|].
  rewrite !clamp_inside by lra.
  destruct (linear_point_inside outside z1) as [H1 _]; [lra|].
  destruct (linear_point_inside outside z2) as [H2 _]; [lra|].
  apply (linear_at_monotone table_x table_y z1 z2); try assumption.
  - apply table_x_increasing.
  - apply table_y_nondecreasing.
  - reflexivity.
  - rewrite hd_table_x; lra.
  - lra.
  - rewrite last_table_x; lra.
Qed.

(** Over every pair of arguments [erf_ref] descends by less than
    [6.2e-8]: it is non-decreasing on each side of zero, and across zero
    the two values are within [3.1e-8] of zero. *)
Lemma erf_ref_nearly_monotone (s1 s2 : R) :
  s1 < s2 -> erf_ref s1 <= erf_ref s2 + 6.2e-8.
Proof.
  intros H12. pose proof erf_pos_0_bounds as H0.
  destruct (Rle_dec 0 s1) as [Hs1|Hs1].
  { pose proof (erf_ref_monotone s1 s2 H12 (or_introl Hs1)). lra. }
  destruct (Rlt_dec s2 0) as [Hs2|Hs2].
  { pose proof (erf_ref_monotone s1 s2 H12 (or_intror (or_introl Hs2))). lra. }
  rewrite (erf_ref_neg s1) by lra. rewrite (erf_ref_nonneg s2) by lra.
  pose proof (erf_pos_monotone 0 (- s1)). pose proof (erf_pos_monotone 0 s2).
  lra.
Qed.

(** C9.  [cdf_table] is non-decreasing, and [cdf] is non-decreasing up to
    the error of the approximation at zero: over every pair [z1 < z2],
    [cdf(z1) <= cdf(z2) + 3.1e-8]. *)
Theorem cdf_monotone (outside : R -> R) (z1 z2 : R) :
  z1 < z2 ->
  (exists a b : R,
      cdf_table (interpolate1d_linear outside) (Scalar z1) = Ok (Scalar a)
      /\ cdf_table (interpolate1d_linear outside) (Scalar z2) = Ok (Scalar b)
      /\ a <= b)
  /\ (exists a b : R,
        outcome (cdf_default (Scalar z1)) = Ok (Scalar a)
        /\ outcome (cdf_default (Scalar z2)) = Ok (Scalar b)
        /\ a <= b + 3.1e-8).
Proof.
  intros H12. split.
  - rewrite !cdf_table_linear_scalar. do 2 eexists.
    split; [reflexivity|]. split; [reflexivity|].
    now apply clamped_monotone.
  - rewrite !cdf_default_scalar. do 2 eexists.
    split; [reflexivity|]. split; [reflexivity|].
    pose proof (erf_ref_nearly_monotone (z1 / sqrt 2) (z2 / sqrt 2)
                  (scaled_lt z1 z2 H12)).
    lra.
Qed.

Lemma cdf_monotone_witness :
  (exists a b : R,
      cdf_table (interpolate1d_linear (fun z => z)) (Scalar (-1)) = Ok (Scalar a)
      /\ cdf_table (interpolate1d_linear (fun z => z)) (Scalar 2) = Ok (Scalar b)
      /\ a <= b)
  /\ (exists a b : R,
        outcome (cdf_default (Scalar (-1))) = Ok (Scalar a)
        /\ outcome (cdf_default (Scalar 2)) = Ok (Scalar b)
        /\ a <= b + 3.1e-8).
Proof.
  apply (cdf_monotone (fun z => z) (-1) 2). lra.
Defined.

(** C9, as stated, fails for [cdf] across zero: [cdf(-1e-8) > cdf(0)]
    although [-1e-8 < 0]. *)
Lemma cdf_not_monotone_at_zero :
  exists a b : R,
    outcome (cdf_default (Scalar (-1e-8))) = Ok (Scalar a)
    /\ outcome (cdf_default (Scalar 0)) = Ok (Scalar b)
    /\ -1e-8 < 0
    /\ b < a.
Proof.
  rewrite !cdf_default_scalar. do 2 eexists.
  split; [reflexivity|]. split; [reflexivity|]. split; [lra|].
  rewrite scaled_0, erf_ref_0.
  pose proof erf_pos_0_bounds as H0. rewrite erf_pos_0 in H0.
  pose proof inv_sqrt2_bounds as Hi. pose proof erf_pos_1e8 as H8.
  assert (Hneg : -1e-8 / sqrt 2 < 0).
  { unfold Rdiv.
    assert (0 < 1e-8 * / sqrt 2) by (apply Rmult_lt_0_compat; lra). lra. }
  rewrite erf_ref_neg by assumption.
  assert (Hle : erf_pos (- (-1e-8 / sqrt 2)) <= erf_pos 1e-8).
  { apply erf_pos_monotone; [lra|]. unfold Rdiv.
    assert (1e-8 * / sqrt 2 <= 1e-8 * 1)
      by (apply Rmult_le_compat_l; lra). lra. }
  lra.
Qed.

(** ** Broadcasting *)

Lemma vmap_ext (f g : R -> R) (z : value) :
  (forall x, f x = g x) -> vmap f z = vmap g z.
Proof.
  intros H. destruct z as [x|l]; cbn; [now rewrite H|].
  f_equal. now apply map_ext.
Qed.

Lemma vmap_vmap (f g : R -> R) (z : value) :
  vmap g (vmap f z) = vmap (fun x => g (f x)) z.
Proof. destruct z as [x|l]; cbn; [reflexivity | now rewrite map_map]. Qed.

Lemma map2_map_map {A B C D : Type} (op : B -> C -> D) (f : A -> B)
      (g : A -> C) (l : list A) :
  map2 op (map f l) (map g l) = map (fun x => op (f x) (g x)) l.
Proof. induction l as [|x l IH]; cbn; [reflexivity | now rewrite IH]. Qed.

Lemma rep_self (z : value) : rep z (fun x => x) z.
Proof. left. destruct z as [x|l]; cbn; [reflexivity | now rewrite map_id]. Qed.

Lemma rep_const (c : R) (z : value) : rep (Scalar c) (fun _ => c) z.
Proof. right. now exists c. Qed.

Lemma rep_ext (v : value) (f g : R -> R) (z : value) :
  rep v f z -> (forall x, f x = g x) -> rep v g z.
Proof.
  intros [->|[c [-> Hc]]] H.
  - left. now apply vmap_ext.
  - right. exists c. split; [reflexivity|]. intros x. now rewrite <- H.
Qed.

Lemma rep_vmap (v : value) (f g : R -> R) (z : value) :
  rep v f z -> rep (vmap g v) (fun x => g (f x)) z.
Proof.
  intros [->|[c [-> Hc]]].
  - left. apply vmap_vmap.
  - right. exists (g c). split; [reflexivity|]. intros x. now rewrite Hc.
Qed.

(** An operation between a value spread across [z] and a value that is
    spread across [z] or a plain number is spread across [z]. *)
Lemma vop2_vmap_l (op : R -> R -> R) (b : value) (f g : R -> R) (z : value) :
  rep b g z ->
  vop2 op (vmap f z) b = vmap (fun x => op (f x) (g x)) z.
Proof.
  intros [->|[c [-> Hc]]]; destruct z as [x|l]; cbn.
  - reflexivity.
  - now rewrite map2_map_map.
  - now rewrite Hc.
  - rewrite map_map. f_equal. apply map_ext. intros x. now rewrite Hc.
Qed.

Lemma vop2_vmap_r (op : R -> R -> R) (a : value) (f g : R -> R) (z : value) :
  rep a f z ->
  vop2 op a (vmap g z) = vmap (fun x => op (f x) (g x)) z.
Proof.
  intros [->|[c [-> Hc]]]; destruct z as [x|l]; cbn.
  - reflexivity.
  - now rewrite map2_map_map.
  - now rewrite Hc.
  - rewrite map_map. f_equal. apply map_ext. intros x. now rewrite Hc.
Qed.

Lemma rep_vop2 (op : R -> R -> R) (a b : value) (f g : R -> R) (z : value) :
  rep a f z -> rep b g z -> rep (vop2 op a b) (fun x => op (f x) (g x)) z.
Proof.
  intros [->|[c [-> Hc]]] Hb.
  - left. now apply vop2_vmap_l.
  - destruct Hb as [->|[d [-> Hd]]].
    + left. apply vop2_vmap_r. right. now exists c.
    + right. exists (op c d). split; [reflexivity|].
      intros x. now rewrite Hc, Hd.
Qed.

(** ** [unstable_cdf2] *)

Lemma fact_neq_0_R (n : nat) : INR (fact n) <> 0.
Proof. apply not_0_INR. apply fact_neq_0. Qed.

Lemma odd_neq_0_R (n : nat) : INR (2 * n + 1) <> 0.
Proof. apply not_0_INR. lia. Qed.

(** After [n] passes the inner loop holds [(-z^2)^n / n!]. *)
Lemma prod_loop_rep (z : value) (n : nat) :
  rep (prod_loop z n) (fun x => (-1) ^ n * x ^ (2 * n) / INR (fact n)) z.
Proof.
  unfold prod_loop. induction n as [|n IH].
  - cbn. right. exists 1. split; [reflexivity|]. intros x. lra.
  - rewrite seq_S, fold_left_app. cbn [fold_left Nat.add].
    eapply rep_ext.
    + apply rep_vop2; [exact IH|].
      apply rep_vmap, rep_vmap, rep_vop2; apply rep_self.
    + intros x. cbv beta.
      replace (2 * S n)%nat with (S (S (2 * n))) by lia.
      replace (n + 1)%nat with (S n) by lia.
      change (fact (S n)) with (S n * fact n)%nat.
      rewrite mult_INR. cbn [pow].
      pose proof (fact_neq_0_R n). pose proof (not_0_INR (S n) ltac:(lia)).
      field. split; assumption.
Qed.

(** The term of pass [n] is the [n]-th term of the Taylor series of the
    error function. *)
Lemma unstable_cdf2_term (z : value) (n : nat) :
  vmap (fun zp => zp / INR (2 * n + 1)) (vop2 Rmult z (prod_loop z n))
  = vmap (fun x => taylor_term x n) z.
Proof.
  pose proof (rep_self z) as [Hz|[c [Hz Hc]]].
  - rewrite Hz at 1. rewrite (vop2_vmap_l _ _ _ _ _ (prod_loop_rep z n)).
    rewrite vmap_vmap. apply vmap_ext. intros x. unfold taylor_term.
    replace (2 * n + 1)%nat with (S (2 * n)) by lia. cbn [pow].
    pose proof (fact_neq_0_R n). pose proof (not_0_INR (S (2 * n)) ltac:(lia)).
    field. split; assumption.
  - exfalso. specialize (Hc 0) as H0. specialize (Hc 1) as H1. lra.
Qed.

Lemma unstable_cdf2_fold (z : value) (m : nat) :
  exists sum,
    fold_left (unstable_cdf2_step z) (seq 0 m) ([], Scalar 0)
    = (map (unstable_cdf2_line z) (seq 0 m), sum)
    /\ rep sum (fun x => series (taylor_term x) m) z
    /\ ((1 <= m)%nat -> sum = vmap (fun x => series (taylor_term x) m) z).
Proof.
  induction m as [|m (sum & Hfold & Hrep & Hstrict)].
  - exists (Scalar 0). cbn. repeat split.
    + right. now exists 0.
    + intros H; lia.
  - rewrite seq_S, fold_left_app, Hfold. cbn [fold_left Nat.add].
    unfold unstable_cdf2_step at 1. rewrite unstable_cdf2_term.
    eexists. split; [|split].
    + rewrite map_app. reflexivity.
    + left. cbn [series]. now apply vop2_vmap_r.
    + intros _. cbn [series]. now apply vop2_vmap_r.
Qed.

Lemma unstable_cdf2_returns (z : value) :
  snd (unstable_cdf2 z)
  = vmap (fun x => 2 * series (taylor_term x) 10 / sqrt PI) z.
Proof.
  unfold unstable_cdf2. cbv zeta.
  destruct (unstable_cdf2_fold z 10) as (sum & -> & _ & Hsum).
  cbn [snd]. rewrite Hsum by lia. apply vmap_vmap.
Qed.

(** X1.  [unstable_cdf2] returns, at every entry [x] of its argument,
    [2/sqrt(pi)] times the first ten terms
    [(-1)^n x^(2n+1) / (n! (2n+1))] of the Taylor series of the error
    function. *)
Theorem unstable_cdf2_value (z : value) :
  snd (unstable_cdf2 z)
  = vmap (fun x => 2 * series (taylor_term x) 10 / sqrt PI) z.
Proof. apply unstable_cdf2_returns. Qed.

(** X2.  [unstable_cdf2] prints ten lines, for [n = 0 .. 9] in order, each
    with [n], the denominator [2n+1] and the term of that pass; the value
    it returns is [2/sqrt(pi)] times the sum of the printed terms. *)
Theorem unstable_cdf2_prints (z : value) :
  fst (unstable_cdf2 z) = map (unstable_cdf2_line z) (seq 0 10)
  /\ length (fst (unstable_cdf2 z)) = 10%nat
  /\ snd (unstable_cdf2 z)
     = vmap (fun s => 2 * s / sqrt PI)
            (fold_left (fun sum l =>
                          match l with
                          | [_; _; PNum term] => vop2 Rplus sum term
                          | _ => sum
                          end)
                       (fst (unstable_cdf2 z)) (Scalar 0)).
Proof.
  unfold unstable_cdf2. cbv zeta.
  destruct (unstable_cdf2_fold z 10) as (sum & Hfold & _ & _).
  rewrite Hfold. cbn [fst snd]. split; [reflexivity|].
  split; [now rewrite length_map, length_seq|].
  f_equal.
  assert (H : forall m s0,
             snd (fold_left (unstable_cdf2_step z) (seq 0 m) ([], s0))
             = fold_left (fun sum l =>
                            match l with
                            | [_; _; PNum term] => vop2 Rplus sum term
                            | _ => sum
                            end)
                         (map (unstable_cdf2_line z) (seq 0 m)) s0).
  { intros m s0.
    assert (G : forall l out s1,
               snd (fold_left (unstable_cdf2_step z) l (out, s1))
               = fold_left (fun sum l =>
                              match l with
                              | [_; _; PNum term] => vop2 Rplus sum term
                              | _ => sum
                              end)
                           (map (unstable_cdf2_line z) l) s1).
    { induction l as [|n l IH]; intros out s1; [reflexivity|].
      cbn [fold_left map]. unfold unstable_cdf2_step at 2.
      rewrite IH. unfold unstable_cdf2_line at 2.
      now rewrite unstable_cdf2_term. }
    apply G. }
  rewrite <- H, Hfold. reflexivity.
Qed.

(** ** [unstable_cdf] *)

(** What the loop of [unstable_cdf] holds after [m] passes: the sign is
    [(-1)^m], but the factorial is [(m-1)!], one step behind. *)
Lemma unstable_cdf_fold (z : value) (m : nat) :
  let st := fold_left (unstable_cdf_step z) (seq 0 m) unstable_cdf_init in
  st_out st = map (unstable_cdf_line z) (seq 0 m)
  /\ IZR (st_sign st) = (-1) ^ m
  /\ st_fact st = fact (pred m)
  /\ rep (st_sum st) (fun x => series (lagging_term x) m) z
  /\ ((1 <= m)%nat ->
      st_sum st = vmap (fun x => series (lagging_term x) m) z).
Proof.
  induction m as [|m IH].
  - cbn. repeat split; try lra.
    + right. now exists 0.
    + intros H; lia.
  - rewrite seq_S, fold_left_app. cbn [fold_left Nat.add].
    set (st := fold_left (unstable_cdf_step z) (seq 0 m) unstable_cdf_init)
      in *.
    cbv zeta in IH. destruct IH as (Hout & Hsign & Hfact & Hrep & _).
    assert (Hnum : vmap (fun x => IZR (st_sign st) * x ^ (2 * m + 1)) z
                   = vmap (fun x => (-1) ^ m * x ^ (2 * m + 1)) z)
      by (apply vmap_ext; intros x; now rewrite Hsign).
    assert (Hterm : vmap (fun x => x / INR (st_fact st * (2 * m + 1)))
                         (vmap (fun x => IZR (st_sign st) * x ^ (2 * m + 1)) z)
                    = vmap (fun x => lagging_term x m) z).
    { rewrite vmap_vmap. apply vmap_ext. intros x. unfold lagging_term.
      now rewrite Hsign, Hfact, mult_INR. }
    unfold unstable_cdf_step. cbn [st_out st_sum st_sign st_fact].
    rewrite Hterm, Hnum, Hout, Hfact.
    split; [|split; [|split; [|split]]].
    + rewrite map_app. reflexivity.
    + rewrite opp_IZR, Hsign. cbn [pow]. lra.
    + destruct m as [|m]; [reflexivity|].
      cbn [Nat.ltb Nat.leb pred]. change (fact (S m)) with (S m * fact m)%nat.
      lia.
    + left. cbn [series]. now apply vop2_vmap_r.
    + intros _. cbn [series]. now apply vop2_vmap_r.
Qed.

Lemma unstable_cdf_returns (z : value) :
  snd (unstable_cdf z)
  = vmap (fun x => 2 * series (lagging_term x) 10 / sqrt PI) z.
Proof.
  unfold unstable_cdf. cbv zeta. fold unstable_cdf_init.
  destruct (unstable_cdf_fold z 10) as (_ & _ & _ & _ & Hsum).
  cbn [snd]. rewrite Hsum by lia. apply vmap_vmap.
Qed.

(** ** [unstable_cdf] on a caller's argument *)

Lemma DBL_MAX_IZR : DBL_MAX = IZR ((2 ^ 53 - 1) * 2 ^ 971).
Proof.
  unfold DBL_MAX. rewrite !pow_IZR.
  change 1 with (IZR 1). rewrite <- minus_IZR, <- mult_IZR.
  apply f_equal. reflexivity.
Qed.

Lemma DBL_MAX_pos : 0 < DBL_MAX.
Proof. rewrite DBL_MAX_IZR. apply IZR_lt. reflexivity. Qed.

Lemma moderate_power_bound : 1e16 ^ 19 <= DBL_MAX.
Proof.
  rewrite DBL_MAX_IZR.
  replace 1e16 with (IZR 10000000000000000) by lra.
  rewrite pow_IZR. apply IZR_le. vm_compute. discriminate.
Qed.

(** Below [1e16] in size, no power up to the nineteenth leaves the range
    of doubles. *)
Lemma moderate_power (x : R) (k : nat) :
  Rabs x <= 1e16 -> (k <= 19)%nat -> ~ DBL_MAX < Rabs (x ^ k).
Proof.
  intros Hx Hk. rewrite <- RPow_abs.
  pose proof (Rabs_pos x) as H0.
  assert (H1 : Rabs x ^ k <= 1e16 ^ k) by (apply pow_incr; lra).
  assert (H2 : 1e16 ^ k <= 1e16 ^ 19) by (apply Rle_pow; [lra | assumption]).
  pose proof moderate_power_bound. lra.
Qed.

Lemma py_pow_moderate (z : pyarg) (k : nat) :
  moderate z -> (k <= 19)%nat ->
  py_pow z k = Ok (vmap (fun x => x ^ k) (as_value z)).
Proof.
  intros Hz Hk. destruct z as [x|l|l]; cbn in *.
  - destruct (Rlt_dec DBL_MAX (Rabs (x ^ k))) as [H|H]; [|reflexivity].
    now contradiction (moderate_power x k Hz Hk).
  - contradiction.
  - reflexivity.
Qed.

(** A pass whose power is in range is the pass of the loop on the numpy
    value. *)
Lemma unstable_cdf_pass_ok (z : pyarg) (st : cdf_state) (n : nat) :
  py_pow z (2 * n + 1) = Ok (vmap (fun x => x ^ (2 * n + 1)) (as_value z)) ->
  unstable_cdf_pass z st n = Ok (unstable_cdf_step (as_value z) st n).
Proof.
  intros H. unfold unstable_cdf_pass, unstable_cdf_step. rewrite H.
  cbn [bind]. now rewrite !vmap_vmap.
Qed.

Lemma unstable_cdf_loop_ok (z : pyarg) (ns : list nat) (st : cdf_state) :
  (forall n, In n ns ->
             py_pow z (2 * n + 1)
             = Ok (vmap (fun x => x ^ (2 * n + 1)) (as_value z))) ->
  unstable_cdf_loop z ns st
  = (st_out (fold_left (unstable_cdf_step (as_value z)) ns st),
     Ok (fold_left (unstable_cdf_step (as_value z)) ns st)).
Proof.
  revert st; induction ns as [|n ns IH]; intros st H; [reflexivity|].
  cbn [unstable_cdf_loop fold_left].
  rewrite unstable_cdf_pass_ok by (apply H; now left).
  apply IH. intros m Hm. apply H. now right.
Qed.

Lemma unstable_cdf_loop_app (z : pyarg) (ns1 ns2 : list nat)
      (st st' : cdf_state) (out : list line) :
  unstable_cdf_loop z ns1 st = (out, Ok st') ->
  unstable_cdf_loop z (ns1 ++ ns2) st = unstable_cdf_loop z ns2 st'.
Proof.
  revert st; induction ns1 as [|n ns1 IH]; intros st H.
  - cbn in H. injection H as _ <-. reflexivity.
  - cbn [app unstable_cdf_loop] in *.
    destruct (unstable_cdf_pass z st n) as [st1|e]; [|discriminate].
    now apply IH.
Qed.

Lemma unstable_cdf_py_ok (z : pyarg) :
  moderate z ->
  unstable_cdf_py z
  = (map (unstable_cdf_line (as_value z)) (seq 0 10),
     Ok (vmap (fun x => 2 * series (lagging_term x) 10 / sqrt PI)
              (as_value z))).
Proof.
  intros Hz. unfold unstable_cdf_py. cbv zeta.
  rewrite unstable_cdf_loop_ok.
  - destruct (unstable_cdf_fold (as_value z) 10) as (Hout & _ & _ & _ & Hsum).
    rewrite Hout. cbn [bind]. rewrite Hsum by lia. now rewrite vmap_vmap.
  - intros n Hn. apply in_seq in Hn. apply py_pow_moderate; [assumption|lia].
Qed.

(** X3.  On a float, or a numpy array of floats, of size at most [1e16],
    [unstable_cdf] prints ten lines, for [n = 0 .. 9] in order (each with
    [n], the numerator [(-1)^n z^(2n+1)], the denominator [(n-1)! (2n+1)]
    and the term), and returns at every entry [x]
    [2/sqrt(pi)] times the sum over [n = 0 .. 9] of
    [(-1)^n x^(2n+1) / ((n-1)! (2n+1))] (with [1] for the factorial at
    [n = 0]): the factorial it divides by is updated after it is used and
    stays one step behind the [n!] of the series. *)
Theorem unstable_cdf_py_returns (z : pyarg) :
  moderate z ->
  unstable_cdf_py z
  = (map (unstable_cdf_line (as_value z)) (seq 0 10),
     Ok (vmap (fun x => 2 * series (lagging_term x) 10 / sqrt PI)
              (as_value z))).
Proof. apply unstable_cdf_py_ok. Qed.

Lemma unstable_cdf_py_returns_witness :
  unstable_cdf_py (NdArray [-2; 0; 1e16])
  = (map (unstable_cdf_line (Array [-2; 0; 1e16])) (seq 0 10),
     Ok (vmap (fun x => 2 * series (lagging_term x) 10 / sqrt PI)
              (Array [-2; 0; 1e16]))).
Proof.
  apply (unstable_cdf_py_returns (NdArray [-2; 0; 1e16])).
  cbn. repeat (apply Forall_cons; [apply Rabs_le; lra|]). apply Forall_nil.
Defined.

(** X4.  On a Python float so large that [z ** (2k+1)] leaves the range of
    doubles at pass [k] (and not before), [unstable_cdf] prints the lines
    of the passes [0 .. k-1] and then raises [OverflowError]; it returns
    nothing.  On a plain list it raises [TypeError] in the first pass,
    before it prints. *)
Theorem unstable_cdf_py_raises (x : R) (k : nat) :
  (k < 10)%nat ->
  (forall j, (j < k)%nat -> Rabs x ^ (2 * j + 1) <= DBL_MAX / 2) ->
  2 * DBL_MAX <= Rabs x ^ (2 * k + 1) ->
  unstable_cdf_py (PyFloat x)
  = (map (unstable_cdf_line (Scalar x)) (seq 0 k), Raise OverflowError)
  /\ forall l, unstable_cdf_py (PyList l) = ([], Raise TypeError).
Proof.
  intros Hk Hlow Hhigh. pose proof DBL_MAX_pos as Hmax.
  split; [|reflexivity].
  unfold unstable_cdf_py. cbv zeta.
  replace (seq 0 10) with (seq 0 k ++ k :: seq (S k) (9 - k)).
  2:{ change (k :: seq (S k) (9 - k)) with (seq k (S (9 - k))).
      rewrite <- seq_app. f_equal. lia. }
  assert (Hok : forall n, In n (seq 0 k) ->
                py_pow (PyFloat x) (2 * n + 1)
                = Ok (vmap (fun x => x ^ (2 * n + 1)) (as_value (PyFloat x)))).
  { intros n Hn. apply in_seq in Hn. cbn [py_pow as_value vmap].
    destruct (Rlt_dec DBL_MAX (Rabs (x ^ (2 * n + 1)))) as [H|H];
      [|reflexivity].
    exfalso. rewrite <- RPow_abs in H.
    specialize (Hlow n ltac:(lia)). lra. }
  rewrite (unstable_cdf_loop_app _ _ _ _ _ _
             (unstable_cdf_loop_ok (PyFloat x) (seq 0 k) unstable_cdf_init
                                   Hok)).
  cbn [unstable_cdf_loop]. unfold unstable_cdf_pass at 1. cbn [py_pow].
  destruct (Rlt_dec DBL_MAX (Rabs (x ^ (2 * k + 1)))) as [H|H].
  - cbn [bind].
    destruct (unstable_cdf_fold (Scalar x) k) as (Hout & _).
    cbn [as_value]. now rewrite Hout.
  - exfalso. rewrite <- RPow_abs in H. lra.
Qed.

Lemma unstable_cdf_py_raises_witness :
  unstable_cdf_py (PyFloat 1e40)
  = (map (unstable_cdf_line (Scalar 1e40)) (seq 0 4), Raise OverflowError)
  /\ forall l, unstable_cdf_py (PyList l) = ([], Raise TypeError).
Proof.
  assert (H40 : 1e40 = IZR 10000000000000000000000000000000000000000)
    by lra.
  assert (Habs : Rabs 1e40 = 1e40) by (apply Rabs_pos_eq; lra).
  assert (Hone : 1 <= 1e40) by lra.
  assert (H7 : 1e40 ^ 7 <= DBL_MAX / 2).
  { assert (2 * 1e40 ^ 7 <= DBL_MAX); [|lra].
    rewrite DBL_MAX_IZR, H40, pow_IZR, <- mult_IZR.
    apply IZR_le. vm_compute. discriminate. }
  apply (unstable_cdf_py_raises 1e40 4).
  - lia.
  - intros j Hj. rewrite Habs.
    apply Rle_trans with (1e40 ^ 7); [|exact H7].
    apply Rle_pow; [exact Hone | lia].
  - rewrite Habs, DBL_MAX_IZR, H40, pow_IZR, <- mult_IZR.
    apply IZR_le. vm_compute. discriminate.
Defined.

(** ** Symmetry of the two prototypes *)

Lemma pow_odd_opp (x : R) (n : nat) : (- x) ^ (2 * n + 1) = - x ^ (2 * n + 1).
Proof.
  induction n as [|n IH]; [cbn; ring|].
  replace (2 * S n + 1)%nat with (S (S (2 * n + 1))) by lia.
  cbn [pow]. rewrite IH. ring.
Qed.

Lemma series_opp (f g : nat -> R) (m : nat) :
  (forall n, f n = - g n) -> series f m = - series g m.
Proof.
  intros H. induction m as [|m IH]; cbn; [lra|]. rewrite IH, H. lra.
Qed.

Lemma series_zero (f : nat -> R) (m : nat) :
  (forall n, f n = 0) -> series f m = 0.
Proof.
  intros H. induction m as [|m IH]; cbn; [lra|]. rewrite IH, H. lra.
Qed.

Lemma pow_odd_0 (n : nat) : 0 ^ (2 * n + 1) = 0.
Proof. apply pow_i. lia. Qed.

(** X5.  Both prototypes are odd functions, entry by entry, and return
    exactly 0 at 0. *)
Theorem unstable_odd (z : value) :
  snd (unstable_cdf2 (vmap Ropp z)) = vmap Ropp (snd (unstable_cdf2 z))
  /\ snd (unstable_cdf (vmap Ropp z)) = vmap Ropp (snd (unstable_cdf z))
  /\ snd (unstable_cdf2 (Scalar 0)) = Scalar 0
  /\ snd (unstable_cdf (Scalar 0)) = Scalar 0.
Proof.
  rewrite !unstable_cdf2_returns, !unstable_cdf_returns, !vmap_vmap.
  repeat split.
  - apply vmap_ext. intros x.
    rewrite (series_opp (taylor_term (- x)) (taylor_term x)).
    + unfold Rdiv. ring.
    + intros n. unfold taylor_term. rewrite pow_odd_opp. unfold Rdiv. ring.
  - apply vmap_ext. intros x.
    rewrite (series_opp (lagging_term (- x)) (lagging_term x)).
    + unfold Rdiv. ring.
    + intros n. unfold lagging_term. rewrite pow_odd_opp. unfold Rdiv. ring.
  - cbn [vmap]. f_equal. rewrite series_zero.
    + unfold Rdiv. ring.
    + intros n. unfold taylor_term. rewrite pow_odd_0. unfold Rdiv. ring.
  - cbn [vmap]. f_equal. rewrite series_zero.
    + unfold Rdiv. ring.
    + intros n. unfold lagging_term. rewrite pow_odd_0. unfold Rdiv. ring.
Qed.

(** ** The two prototypes are different functions *)

Ltac eval_INR :=
  rewrite ?INR_IZR_INZ;
  repeat match goal with
         | |- context [Z.of_nat ?t] =>
             let v := eval vm_compute in (Z.of_nat t) in
             change (Z.of_nat t) with v
         end.

(** The difference of the two sums, term by term: the first two terms
    agree, the others do not. *)
Lemma series_difference (x : R) :
  series (lagging_term x) 10 - series (taylor_term x) 10
  = x ^ 5 * ((1 / 10 - x * x / 21)
             + (x * x) ^ 2 * (1 / 72 - x * x / 330)
             + (x * x) ^ 4 * (1 / 1872 - x * x / 12600)
             + (x * x) ^ 6 * (1 / 97920 - x * x / 861840)).
Proof.
  cbn [series]. unfold lagging_term, taylor_term. cbn [pred].
  eval_INR. cbn [Nat.mul Nat.add pow]. field.
Qed.


Lemma sqrt_PI_pos : 0 < sqrt PI.
Proof. apply sqrt_lt_R0. apply PI_RGT_0. Qed.

Lemma sqrt_PI_le_2 : sqrt PI <= 2.
Proof.
  pose proof sqrt_PI_pos as Hp. pose proof PI_4 as H4.
  assert (Hs : sqrt PI * sqrt PI = PI)
    by (apply sqrt_sqrt; left; apply PI_RGT_0).
  destruct (Rle_dec (sqrt PI) 2) as [H|H]; [assumption|exfalso].
  assert (2 * 2 < sqrt PI * sqrt PI)
    by (apply Rmult_le_0_lt_compat; lra).
  lra.
Qed.

(** On [0.1 <= x <= 1] the two sums are at least [5.2e-7] apart. *)
Lemma series_difference_margin (x : R) :
  0.1 <= x <= 1 ->
  series (taylor_term x) 10 + 5.2e-7 <= series (lagging_term x) 10.
Proof.
  intros Hx. pose proof (series_difference x) as H.
  assert (Hw : 0 < x * x <= 1).
  { split; [apply Rmult_lt_0_compat; lra|].
    replace 1 with (1 * 1) by lra. apply Rmult_le_compat; lra. }
  set (w := x * x) in *.
  assert (H2 : 0 <= w ^ 2 * (1 / 72 - w / 330))
    by (apply Rmult_le_pos; [apply pow_le; lra | lra]).
  assert (H4 : 0 <= w ^ 4 * (1 / 1872 - w / 12600))
    by (apply Rmult_le_pos; [apply pow_le; lra | lra]).
  assert (H6 : 0 <= w ^ 6 * (1 / 97920 - w / 861840))
    by (apply Rmult_le_pos; [apply pow_le; lra | lra]).
  assert (H5 : 0.1 ^ 5 <= x ^ 5) by (apply pow_incr; lra).
  assert (0.1 ^ 5 * (1 / 10 - 1 / 21)
          <= x ^ 5 * (1 / 10 - w / 21 + w ^ 2 * (1 / 72 - w / 330)
                      + w ^ 4 * (1 / 1872 - w / 12600)
                      + w ^ 6 * (1 / 97920 - w / 861840)))
    by (apply Rmult_le_compat; lra).
  lra.
Qed.

(** X6.  The two prototypes are different functions: on
    [0.1 <= z <= 1], [unstable_cdf(z)] exceeds [unstable_cdf2(z)] by at
    least [5e-7]. *)
Theorem unstable_cdf_differs (x : R) :
  0.1 <= x <= 1 ->
  exists a b : R,
    snd (unstable_cdf_py (PyFloat x)) = Ok (Scalar a)
    /\ snd (unstable_cdf2 (Scalar x)) = Scalar b
    /\ b + 5e-7 <= a.
Proof.
  intros Hx. rewrite unstable_cdf_py_ok by (cbn; apply Rabs_le; lra).
  rewrite unstable_cdf2_returns. cbn [vmap snd as_value].
  do 2 eexists. split; [reflexivity|]. split; [reflexivity|].
  pose proof (series_difference_margin x Hx) as H.
  pose proof sqrt_PI_pos as Hp. pose proof sqrt_PI_le_2 as H2.
  set (L := series (lagging_term x) 10) in *.
  set (T := series (taylor_term x) 10) in *.
  assert (Hi : 1 / 2 <= / sqrt PI).
  { replace (1 / 2) with (/ 2) by lra. apply Rinv_le_contravar; lra. }
  assert (Hd : 2 * (L - T) * (1 / 2) <= 2 * (L - T) * / sqrt PI)
    by (apply Rmult_le_compat_l; lra).
  unfold Rdiv. lra.
Qed.

Lemma unstable_cdf_differs_witness :
  exists a b : R,
    snd (unstable_cdf_py (PyFloat 1)) = Ok (Scalar a)
    /\ snd (unstable_cdf2 (Scalar 1)) = Scalar b
    /\ b + 5e-7 <= a.
Proof.
  apply (unstable_cdf_differs 1). lra.
Defined.

(** ** Range and tail of [erf] *)

Lemma erf_pos_lt_1 (z : R) : erf_pos z < 1.
Proof.
  unfold erf_pos. cbv zeta. pose proof (tval_range z) as Ht.
  assert (0 < tval z * exp (- z ^ 2 - 1.26551223 + poly (tval z)))
    by (apply Rmult_lt_0_compat; [lra | apply exp_pos]).
  lra.
Qed.

(** The exponent never exceeds [3e-8 - z^2], so the approximation is at
    least [1 - exp(3e-8 - z^2)]. *)
Lemma erf_pos_tail (z : R) : 1 - exp (3e-8 - z ^ 2) <= erf_pos z.
Proof.
  unfold erf_pos. cbv zeta. pose proof (tval_range z) as Ht.
  assert (Hp : poly (tval z) <= 1.26551226)
    by (rewrite <- poly_1; apply poly_monotone; lra).
  set (E := - z ^ 2 - 1.26551223 + poly (tval z)).
  assert (HE : exp E <= exp (3e-8 - z ^ 2)) by (apply exp_le; unfold E; lra).
  pose proof (exp_pos E) as Hpos.
  assert (tval z * exp E <= 1 * exp (3e-8 - z ^ 2))
    by (apply Rmult_le_compat; lra).
  lra.
Qed.

Lemma erf_pos_gt (z : R) : -3.1e-8 < erf_pos z.
Proof.
  pose proof (erf_pos_tail z) as Ht.
  assert (Hsq : 0 <= z ^ 2) by (cbn [pow]; rewrite Rmult_1_r; apply Rle_0_sqr).
  assert (He : exp (3e-8 - z ^ 2) <= exp 3e-8) by (apply exp_le; lra).
  pose proof erf_at_zero_bounds. lra.
Qed.

Lemma erf_ref_range (z : R) : -1 < erf_ref z < 1.
Proof.
  destruct (Rlt_dec z 0) as [Hz|Hz].
  - rewrite erf_ref_neg by assumption.
    pose proof (erf_pos_lt_1 (- z)). pose proof (erf_pos_gt (- z)). lra.
  - rewrite erf_ref_nonneg by lra.
    pose proof (erf_pos_lt_1 z). pose proof (erf_pos_gt z). lra.
Qed.

(** X7.  [erf] stays between -1 and 1, and its tail is bounded by a
    Gaussian: [erf(z) >= 1 - exp(3.1e-8 - z^2)] for [z >= 0] and
    [erf(z) <= -(1 - exp(3.1e-8 - z^2))] for [z < 0]. *)
Theorem erf_range_and_tail (z : R) :
  exists v : R,
    erf (Scalar z) = Ok (Scalar v)
    /\ -1 <= v <= 1
    /\ (0 <= z -> 1 - exp (3.1e-8 - z ^ 2) <= v)
    /\ (z < 0 -> v <= - (1 - exp (3.1e-8 - z ^ 2))).
Proof.
  exists (erf_ref z). split; [apply erf_scalar|].
  split; [pose proof (erf_ref_range z); lra|].
  assert (He : exp (3e-8 - z ^ 2) <= exp (3.1e-8 - z ^ 2))
    by (apply exp_le; lra).
  split; intros Hz.
  - rewrite erf_ref_nonneg by assumption.
    pose proof (erf_pos_tail z). lra.
  - rewrite erf_ref_neg by assumption.
    pose proof (erf_pos_tail (- z)) as H.
    replace ((- z) ^ 2) with (z ^ 2) in H by ring. lra.
Qed.

(** X8.  Near zero the sign of [erf] is wrong: on [0 <= z <= 1e-8] it is
    negative or zero, on [-1e-8 <= z < 0] positive or zero.  From [7e-8]
    on it has the sign of its argument, with [|erf(z)| >= 3.1e-8]. *)
Theorem erf_sign (z : R) :
  exists v : R,
    erf (Scalar z) = Ok (Scalar v)
    /\ (0 <= z <= 1e-8 -> v <= 0)
    /\ (-1e-8 <= z < 0 -> 0 <= v)
    /\ (7e-8 <= z -> 3.1e-8 <= v)
    /\ (z <= -7e-8 -> v <= -3.1e-8).
Proof.
  exists (erf_ref z). split; [apply erf_scalar|].
  pose proof erf_pos_1e8 as H1. pose proof erf_pos_7e8 as H7.
  repeat split; intros Hz.
  - rewrite erf_ref_nonneg by lra.
    pose proof (erf_pos_monotone z 1e-8). lra.
  - rewrite erf_ref_neg by lra.
    pose proof (erf_pos_monotone (- z) 1e-8). lra.
  - rewrite erf_ref_nonneg by lra.
    pose proof (erf_pos_monotone 7e-8 z). lra.
  - rewrite erf_ref_neg by lra.
    pose proof (erf_pos_monotone 7e-8 (- z)). lra.
Qed.

(** ** [cdf] as a distribution function *)

Lemma cdf_normal_value_unit (x mu sigma : R) :
  0 < (1 + erf_ref ((x - mu) / (sigma * sqrt 2))) / 2 < 1.
Proof.
  pose proof (erf_ref_range ((x - mu) / (sigma * sqrt 2))). lra.
Qed.

(** X9.  For [sigma <> 0] and either allowed [kind] (with positive
    arguments in the log-normal case), every number [cdf] returns lies
    between 0 and 1. *)
Theorem cdf_is_probability (mu sigma : R) (kind : string) :
  In kind kinds -> sigma <> 0 ->
  (forall x : R,
      (kind = "lognormal"%string -> 0 < x) ->
      exists v,
        outcome (cdf (Scalar x) mu sigma kind) = Ok (Scalar v) /\ 0 <= v <= 1)
  /\ (forall l : list R,
        (kind = "lognormal"%string -> Forall (fun x => 0 < x) l) ->
        exists out,
          outcome (cdf (Array l) mu sigma kind) = Ok (Array out)
          /\ length out = length l
          /\ Forall (fun v => 0 <= v <= 1) out).
Proof.
  intros Hk Hs.
  assert (Hu : forall x, 0 <= (1 + erf_ref ((x - mu) / (sigma * sqrt 2))) / 2
                         <= 1)
    by (intros x; pose proof (cdf_normal_value_unit x mu sigma); lra).
  split.
  - intros x _. rewrite cdf_outcome by assumption.
    destruct (String.eqb kind "lognormal"); cbn [vmap];
      rewrite cdf_normal_value_scalar; eexists; (split; [reflexivity|]);
      apply Hu.
  - intros l _. rewrite cdf_outcome by assumption.
    destruct (String.eqb kind "lognormal"); cbn [vmap];
      rewrite cdf_normal_value_array; eexists;
      (split; [reflexivity|]); (split; [now rewrite !length_map|]);
      apply Forall_forall; intros v Hv; apply in_map_iff in Hv;
      destruct Hv as [x [<- _]]; apply Hu.
Qed.

Lemma cdf_is_probability_witness :
  (forall x : R,
      ("lognormal"%string = "lognormal"%string -> 0 < x) ->
      exists v,
        outcome (cdf (Scalar x) 0 1 "lognormal") = Ok (Scalar v)
        /\ 0 <= v <= 1)
  /\ (forall l : list R,
        ("lognormal"%string = "lognormal"%string ->
         Forall (fun x => 0 < x) l) ->
        exists out,
          outcome (cdf (Array l) 0 1 "lognormal") = Ok (Array out)
          /\ length out = length l
          /\ Forall (fun v => 0 <= v <= 1) out).
Proof.
  apply (cdf_is_probability 0 1 "lognormal"); [cbn; auto | lra].
Defined.



(** X11.  Reflection: with the default parameters [cdf(-d) + cdf(d)]
    differs from 1 by at most [3.1e-8], for every [d] (zero included, where
    the sum is [1 + erf(0)]). *)
Theorem cdf_reflection (d : R) :
  exists a b : R,
    outcome (cdf_default (Scalar d)) = Ok (Scalar a)
    /\ outcome (cdf_default (Scalar (- d))) = Ok (Scalar b)
    /\ Rabs (a + b - 1) <= 3.1e-8.
Proof.
  rewrite !cdf_default_scalar. do 2 eexists.
  split; [reflexivity|]. split; [reflexivity|].
  replace (- d / sqrt 2) with (- (d / sqrt 2)) by (unfold Rdiv; ring).
  set (s := d / sqrt 2).
  pose proof erf_pos_0_bounds as H0.
  apply Rabs_le.
  destruct (Rtotal_order s 0) as [Hn|[->|Hp]].
  - rewrite (erf_ref_neg s) by assumption.
    rewrite (erf_ref_nonneg (- s)) by lra. lra.
  - rewrite Ropp_0, erf_ref_nonneg by lra. lra.
  - rewrite (erf_ref_nonneg s) by lra.
    rewrite (erf_ref_neg (- s)) by lra. rewrite Ropp_involutive. lra.
Qed.


(** X13.  An array argument is treated entry by entry: position [i] of
    [erf(z)] and of [cdf(z)] is what the function returns for the scalar
    [z[i]]; the empty array gives the empty array. *)
Theorem entrywise (l : list R) (mu sigma : R) (kind : string) :
  In kind kinds ->
  (exists out,
      erf (Array l) = Ok (Array out)
      /\ Forall2 (fun z v => erf (Scalar z) = Ok (Scalar v)) l out)
  /\ (exists out,
         outcome (cdf (Array l) mu sigma kind) = Ok (Array out)
         /\ Forall2 (fun z v => outcome (cdf (Scalar z) mu sigma kind)
                                = Ok (Scalar v)) l out)
  /\ erf (Array []) = Ok (Array [])
  /\ outcome (cdf (Array []) mu sigma kind) = Ok (Array []).
Proof.
  intros Hk. rewrite !cdf_outcome by assumption. rewrite erf_array.
  assert (F : forall (f : R -> R) (P : R -> R -> Prop),
             (forall z, P z (f z)) -> Forall2 P l (map f l)).
  { intros f P H. induction l as [|z l IH]; cbn; constructor; auto. }
  split; [|split; [|split]].
  - eexists. split; [reflexivity|].
    apply F. intros z. apply erf_scalar.
  - destruct (String.eqb kind "lognormal") eqn:E; cbn [vmap];
      rewrite cdf_normal_value_array; eexists; (split; [reflexivity|]).
    + rewrite map_map. apply F. intros z.
      rewrite cdf_outcome by assumption. rewrite E. reflexivity.
    + apply F. intros z.
      rewrite cdf_outcome by assumption. rewrite E. reflexivity.
  - reflexivity.
  - destruct (String.eqb kind "lognormal"); reflexivity.
Qed.

Lemma entrywise_witness :
  (exists out,
      erf (Array [0; 1]) = Ok (Array out)
      /\ Forall2 (fun z v => erf (Scalar z) = Ok (Scalar v)) [0; 1] out)
  /\ (exists out,
         outcome (cdf (Array [0; 1]) 0 1 "normal") = Ok (Array out)
         /\ Forall2 (fun z v => outcome (cdf (Scalar z) 0 1 "normal")
                                = Ok (Scalar v)) [0; 1] out)
  /\ erf (Array []) = Ok (Array [])
  /\ outcome (cdf (Array []) 0 1 "normal") = Ok (Array []).
Proof.
  apply (entrywise [0; 1] 0 1 "normal"). cbn; auto.
Defined.

(** ** [cdf_table] and the routine's values outside the domain *)

Lemma map2_clamp_ext (l r1 r2 : list R) :
  length r1 = length l -> length r2 = length l ->
  (forall i z, nth_error l i = Some z -> -5.00 <= z <= 4.90 ->
               nth_error r1 i = nth_error r2 i) ->
  map2 clamp l r1 = map2 clamp l r2.
Proof.
  revert r1 r2; induction l as [|z l IH]; intros [|v1 r1] [|v2 r2] H1 H2 H;
    try discriminate; [reflexivity|].
  cbn [map2]. f_equal.
  - destruct (Rlt_dec z (-5.00)) as [Hlo|Hlo];
      [now rewrite !clamp_below by assumption|].
    destruct (Rlt_dec 4.90 z) as [Hhi|Hhi];
      [now rewrite !clamp_above by assumption|].
    specialize (H 0%nat z eq_refl ltac:(lra)). cbn in H. now injection H as ->.
  - apply IH; [now injection H1 | now injection H2|].
    intros i z' Hi Hz'. apply (H (S i) z' Hi Hz').
Qed.

(** X14.  What [cdf_table] returns does not depend on what the
    interpolation routine returns for queries outside [[-5.00, 4.90]]:
    two routines that agree on the queries inside the domain give the same
    result, for a scalar and for an array. *)
Theorem cdf_table_ignores_outside (interp1 interp2 : interpolator)
        (z : value) (r1 r2 : list R) :
  interp1 table_x table_y (snd (input_check z)) = Ok r1 ->
  interp2 table_x table_y (snd (input_check z)) = Ok r2 ->
  length r1 = length (snd (input_check z)) ->
  length r2 = length (snd (input_check z)) ->
  (forall i zi, nth_error (snd (input_check z)) i = Some zi ->
                -5.00 <= zi <= 4.90 ->
                nth_error r1 i = nth_error r2 i) ->
  cdf_table interp1 z = cdf_table interp2 z.
Proof.
  intros H1 H2 L1 L2 H.
  pose proof (map2_clamp_ext _ r1 r2 L1 L2 H) as Heq.
  destruct z as [x|l]; cbn [input_check snd] in *.
  - destruct (cdf_table_scalar interp1 x r1 H1 L1) as [v1 [-> ->]].
    destruct (cdf_table_scalar interp2 x r2 H2 L2) as [v2 [-> ->]].
    cbn [map2] in Heq. now injection Heq as ->.
  - rewrite (cdf_table_array interp1 l r1 H1 L1).
    rewrite (cdf_table_array interp2 l r2 H2 L2). now rewrite Heq.
Qed.

Lemma linear_point_outside_irrelevant (out1 out2 : R -> R) (z : R) :
  -5.00 <= z <= 4.90 ->
  linear_point out1 table_x table_y z = linear_point out2 table_x table_y z.
Proof.
  intros Hz.
  destruct (linear_point_inside out1 z Hz) as [H1 _].
  destruct (linear_point_inside out2 z Hz) as [H2 _].
  rewrite H1 in H2. now injection H2.
Qed.

Lemma cdf_table_ignores_outside_witness :
  cdf_table (interpolate1d_linear (fun _ => 0)) (Array [-10; 0; 10])
  = cdf_table (interpolate1d_linear (fun z => z)) (Array [-10; 0; 10]).
Proof.
  apply (cdf_table_ignores_outside
           (interpolate1d_linear (fun _ => 0))
           (interpolate1d_linear (fun z => z))
           (Array [-10; 0; 10])
           (map (linear_point (fun _ => 0) table_x table_y) [-10; 0; 10])
           (map (linear_point (fun z => z) table_x table_y) [-10; 0; 10])).
  - reflexivity.
  - reflexivity.
  - reflexivity.
  - reflexivity.
  - intros i zi Hi Hz. cbn [input_check snd] in Hi.
    rewrite !nth_error_map, Hi. cbn [option_map]. f_equal.
    now apply linear_point_outside_irrelevant.
Defined.

(** ** [cdf_table] at the points of the table *)

Lemma increasing_nth_gt (x0 : R) (xs : list R) (j : nat) (x : R) :
  increasing (x0 :: xs) -> nth_error xs j = Some x -> x0 < x.
Proof.
  revert x0 j; induction xs as [|x1 xs IH]; intros x0 j Hinc Hj;
    [destruct j; discriminate|].
  destruct Hinc as [H01 Hinc]. destruct j as [|j].
  - cbn in Hj. injection Hj as <-. assumption.
  - cbn in Hj. specialize (IH x1 j Hinc Hj). lra.
Qed.

(** At the [i]-th abscissa the interpolant is the [i]-th ordinate. *)
Lemma linear_at_node (xs ys : list R) (i : nat) (x y : R) :
  increasing xs -> length xs = length ys -> (2 <= length xs)%nat ->
  nth_error xs i = Some x -> nth_error ys i = Some y ->
  linear_at xs ys x = Some y.
Proof.
  revert ys i; induction xs as [|x0 xs IH]; intros ys i Hinc Hlen H2 Hx Hy;
    [simpl in H2; lia|].
  destruct xs as [|x1 xs]; [simpl in H2; lia|].
  destruct ys as [|y0 [|y1 ys]]; try discriminate.
  destruct Hinc as [H01 Hinc]. rewrite linear_at_cons.
  destruct i as [|[|i]].
  - cbn in Hx, Hy. injection Hx as <-. injection Hy as <-.
    destruct (Rle_dec x0 x1); [|lra]. f_equal. unfold Rdiv.
    rewrite Rminus_diag. ring.
  - cbn in Hx, Hy. injection Hx as <-. injection Hy as <-.
    destruct (Rle_dec x1 x1); [|lra]. f_equal. field. lra.
  - cbn [nth_error] in Hx, Hy.
    pose proof (increasing_nth_gt x1 xs i x Hinc Hx) as Hgt.
    destruct (Rle_dec x x1); [lra|].
    destruct xs as [|x2 xs]; [destruct i; discriminate|].
    apply (IH (y1 :: ys) (S i)); try assumption.
    + simpl in Hlen |- *; lia.
    + simpl; lia.
Qed.

Lemma table_x_range : Forall (fun x => -5.00 <= x <= 4.90) table_x.
Proof.
  unfold table_x. repeat (apply Forall_cons; [lra|]). apply Forall_nil.
Qed.

(** X15.  With the piecewise-linear routine, [cdf_table] reproduces the
    table: at the [i]-th table abscissa it returns the [i]-th table
    value, for every one of the 100 entries. *)
Theorem cdf_table_at_nodes (outside : R -> R) (i : nat) (x y : R) :
  nth_error table_x i = Some x -> nth_error table_y i = Some y ->
  cdf_table (interpolate1d_linear outside) (Scalar x) = Ok (Scalar y).
Proof.
  intros Hx Hy.
  assert (Hr : -5.00 <= x <= 4.90).
  { pose proof table_x_range as H. rewrite Forall_forall in H.
    apply H. eapply nth_error_In; eassumption. }
  rewrite cdf_table_linear_scalar, clamp_inside by assumption.
  destruct (linear_point_inside outside x Hr) as [Hp _].
  rewrite (linear_at_node table_x table_y i x y) in Hp;
    [now injection Hp as <- | apply table_x_increasing | reflexivity
     | cbn; lia | assumption | assumption].
Qed.

Lemma cdf_table_at_nodes_witness :
  cdf_table (interpolate1d_linear (fun z => z)) (Scalar 0.00)
  = Ok (Scalar 5.00000000e-01).
Proof.
  apply (cdf_table_at_nodes (fun z => z) 50 0.00 5.00000000e-01);
    reflexivity.
Defined.
